(** * callback_decorator: ownership tokens and the ensure_callback wrappers

    A shallow embedding of [callback_decorator/__init__.py].

    Python objects of class [CallbackWrapper] live in a store indexed by
    locations; the attribute [_callobj] of the object at location [l] is
    the entry [l] of the store.  Everything the module does is a state
    transformer over that store.  The store also carries a trace of the
    token operations and callable applications performed so far; the trace
    is never read by the embedded code, it only serves to state how often
    and with which arguments a callback was reached. *)

From stdpp Require Import base option list strings gmap.
From Stdlib Require Import ZArith.

Open Scope string_scope.
Open Scope list_scope.

(** ** Values *)

Definition loc := nat.
Definition fn_id := string.

(** Python values that are not instances of [CallbackWrapper]. *)
Inductive plain : Type :=
  | PNone
  | PInt (n : Z)
  | PStr (t : string)
  | PFun (f : fn_id).

(** A value is either such a plain value or a reference to a
    [CallbackWrapper] instance ([isinstance(v, CallbackWrapper)]). *)
Inductive value : Type :=
  | VPlain (p : plain)
  | VToken (l : loc).

Abbreviation VNone := (VPlain PNone).

(** The positional and keyword arguments of a call. *)
Record call_args : Type := CallArgs {
  positional : list value;
  keywords : list (string * value)
}.

Definition no_args : call_args := CallArgs [] [].

(** [inspect.BoundArguments.arguments]: parameter name to bound value. *)
Abbreviation arguments := (gmap string value).

Record exn : Type := Exn {
  exn_type : string;
  exn_msg : string
}.

Inductive res (A : Type) : Type :=
  | Ok (a : A)
  | Err (e : exn).
Arguments Ok {A} a.
Arguments Err {A} e.

(** What a call gives back to its caller: a returned value or a raised
    exception. *)
Definition outcome := res value.

Global Instance plain_eq_dec : EqDecision plain.
Proof. solve_decision. Defined.
Global Instance value_eq_dec : EqDecision value.
Proof. solve_decision. Defined.
Global Instance call_args_eq_dec : EqDecision call_args.
Proof. solve_decision. Defined.
Global Instance exn_eq_dec : EqDecision exn.
Proof. solve_decision. Defined.

(** ** Store and trace *)

Inductive event : Type :=
  (** [CallbackWrapper.__call__] ran on token [l] with arguments [a] and
      found [held] in [_callobj]; when [held] is not [PNone] it was
      cleared and applied to [a]. *)
  | EInvoke (l : loc) (a : call_args) (held : plain)
  (** [CallbackWrapper.release] ran on token [l] and found [held]; when
      [held] is not [PNone] it was cleared and handed out. *)
  | ERelease (l : loc) (held : plain)
  (** A value that is not a token was applied directly to [a]. *)
  | ECall (p : plain) (a : call_args).

Global Instance event_eq_dec : EqDecision event.
Proof. solve_decision. Defined.

Record state : Type := State {
  heap : list plain;      (* [_callobj] of every CallbackWrapper instance *)
  trace : list event
}.

Definition log (e : event) (s : state) : state :=
  State (heap s) (trace s ++ [e]).

Definition set_callobj (l : loc) (p : plain) (s : state) : state :=
  State (<[l := p]> (heap s)) (trace s).

Definition alloc (p : plain) (s : state) : loc * state :=
  (length (heap s), State (heap s ++ [p]) (trace s)).

(** ** A state and exception monad *)

Definition M (A : Type) : Type := state -> res A * state.

Definition ret {A} (a : A) : M A := fun s => (Ok a, s).
Definition raise {A} (e : exn) : M A := fun s => (Err e, s).
Definition bind {A B} (m : M A) (k : A -> M B) : M B := fun s =>
  match m s with
  | (Ok a, s') => k a s'
  | (Err e, s') => (Err e, s')
  end.

(** [try: body finally: fin].  The clean-up runs on both exits of [body];
    when the clean-up itself raises, its exception is the one that leaves
    the statement, otherwise the outcome of [body] does. *)
Definition try_finally {A B} (body : M A) (fin : M B) : M A := fun s =>
  let '(r, s1) := body s in
  match fin s1 with
  | (Ok _, s2) => (r, s2)
  | (Err e, s2) => (Err e, s2)
  end.

Notation "'do' x <- m ; k" := (bind m (fun x => k))
  (at level 10, x name, m at level 100, k at level 200).
Notation "'do' ' pat <- m ; k" := (bind m (fun x => match x with pat => k end))
  (at level 10, pat pattern, m at level 100, k at level 200).

(** ** Exceptions raised by the module and by the interpreter *)

Definition RuntimeError (msg : string) : exn := Exn "RuntimeError" msg.
Definition ValueError (msg : string) : exn := Exn "ValueError" msg.
Definition TypeError (msg : string) : exn := Exn "TypeError" msg.
Definition KeyError (msg : string) : exn := Exn "KeyError" msg.
Definition AttributeError (msg : string) : exn := Exn "AttributeError" msg.

Definition already_released : exn :=
  RuntimeError "Cannot release a call object which is already released!".

Definition no_callobj : exn :=
  AttributeError "'CallbackWrapper' object has no attribute '_callobj'".

(** ** Reading the trace *)

(** The events logged between the stores [s] and [s']. *)
Definition since (s s' : state) : list event :=
  drop (length (trace s)) (trace s').

Definition on_token (l : loc) (e : event) : bool :=
  match e with
  | EInvoke l' _ _ | ERelease l' _ => bool_decide (l' = l)
  | ECall _ _ => false
  end.

(** What the operation behind an event found or applied. *)
Definition found (e : event) : plain :=
  match e with
  | EInvoke _ _ p | ERelease _ p | ECall p _ => p
  end.

(** The operations performed on token [l]. *)
Fixpoint token_events (l : loc) (t : list event) : list event :=
  match t with
  | [] => []
  | e :: t' => if on_token l e then e :: token_events l t' else token_events l t'
  end.

(** A consuming operation on token [l]: an invoke that applied the held
    value, or a release that handed it out. *)
Definition consuming (l : loc) (e : event) : bool :=
  on_token l e && negb (bool_decide (found e = PNone)).

Fixpoint consumptions (l : loc) (t : list event) : list event :=
  match t with
  | [] => []
  | e :: t' => if consuming l e then e :: consumptions l t' else consumptions l t'
  end.

(** The applications made through token [l]: the held value and the
    arguments it was applied to. *)
Fixpoint token_calls (l : loc) (t : list event) : list (plain * call_args) :=
  match t with
  | [] => []
  | EInvoke l' a p :: t' =>
      if consuming l (EInvoke l' a p)
      then (p, a) :: token_calls l t' else token_calls l t'
  | _ :: t' => token_calls l t'
  end.

(** The arguments of every application of the callable [f], by whatever
    route: through some token or directly. *)
Fixpoint calls_to (f : fn_id) (t : list event) : list call_args :=
  match t with
  | [] => []
  | EInvoke _ a (PFun g) :: t' | ECall (PFun g) a :: t' =>
      if decide (g = f) then a :: calls_to f t' else calls_to f t'
  | _ :: t' => calls_to f t'
  end.

(** [coherent l q t]: the events [t] are what a token [l] holding [q] can
    produce: its first operation finds [q], every later one finds the
    token empty. *)
Fixpoint coherent (l : loc) (q : plain) (t : list event) : Prop :=
  match t with
  | [] => True
  | e :: t' =>
      if on_token l e then found e = q /\ coherent l PNone t'
      else coherent l q t'
  end.

(** What token [l], holding [q], holds after the events [t]. *)
Definition after (l : loc) (q : plain) (t : list event) : plain :=
  match token_events l t with
  | [] => q
  | _ :: _ => PNone
  end.

(** [evolves s s']: the store [s'] comes from [s] by logging events that
    are coherent for every token of [s], each token holding afterwards
    what these events leave in it; no token disappears and the tokens that
    did not exist in [s] were not operated on. *)
Definition evolves (s s' : state) : Prop :=
  exists t,
    trace s' = trace s ++ t /\
    length (heap s) <= length (heap s') /\
    (forall l q, heap s !! l = Some q ->
       coherent l q t /\ heap s' !! l = Some (after l q t)).

(** ** Sequences of operations on one token *)

Inductive token_op : Type :=
  | Invoke (a : call_args)
  | ReleaseIt.

(** What an operation on an empty token gives: an invoke returns [None],
    a release raises. *)
Definition idle (op : token_op) : outcome :=
  match op with
  | Invoke _ => Ok VNone
  | ReleaseIt => Err already_released
  end.

Definition idle_event (l : loc) (op : token_op) : event :=
  match op with
  | Invoke a => EInvoke l a PNone
  | ReleaseIt => ERelease l PNone
  end.

Section Semantics.

(** What the callables of the surrounding program do when applied: they
    return a value or raise an exception, and may look at the store while
    doing so.  Callables that themselves operate on tokens are outside this
    development. *)
Variable behaviour : fn_id -> call_args -> state -> outcome.

(** Application of a value that is not a token to the arguments [a], in
    the store [s]. *)
Definition apply_callable (p : plain) (a : call_args) (s : state) : outcome :=
  match p with
  | PFun f => behaviour f a s
  | _ => Err (TypeError "object is not callable")
  end.

(** ** class CallbackWrapper *)

(** [CallbackWrapper.__call__] *)
Definition CallbackWrapper_call (l : loc) (a : call_args) : M value := fun s =>
  match heap s !! l with
  | None => (Err no_callobj, s)
  | Some PNone => (Ok VNone, log (EInvoke l a PNone) s)
  | Some callobj =>
      let s' := log (EInvoke l a callobj) (set_callobj l PNone s) in
      (apply_callable callobj a s', s')
  end.

(** [CallbackWrapper.release] *)
Definition CallbackWrapper_release (l : loc) : M plain := fun s =>
  match heap s !! l with
  | None => (Err no_callobj, s)
  | Some PNone => (Err already_released, log (ERelease l PNone) s)
  | Some callobj => (Ok callobj, log (ERelease l callobj) (set_callobj l PNone s))
  end.

Definition do_op (l : loc) (op : token_op) : M value :=
  match op with
  | Invoke a => CallbackWrapper_call l a
  | ReleaseIt => do p <- CallbackWrapper_release l ; ret (VPlain p)
  end.

(** Performs the operations one after the other; an exception raised by
    one of them is caught by the caller, who goes on with the next. *)
Fixpoint run_ops (l : loc) (ops : list token_op) (s : state) : list outcome * state :=
  match ops with
  | [] => ([], s)
  | op :: ops' =>
      let '(o, s1) := do_op l op s in
      let '(os, s2) := run_ops l ops' s1 in
      (o :: os, s2)
  end.

(** [release_callback] *)
Definition release_callback (callobj : value) : M plain :=
  match callobj with
  | VToken l => CallbackWrapper_release l
  | VPlain p => ret p
  end.

(** [CallbackWrapper.__init__], together with the allocation of the
    instance: the new token is only reachable when [__init__] returns. *)
Definition CallbackWrapper_init (callobj : value) : M loc :=
  do p <- release_callback callobj ;
  fun s => let '(l, s') := alloc p s in (Ok l, s').

(** ** Function bodies

    The body of a decorated function is a tree of the operations it can
    perform on the values it was given: apply one of them, hand one to
    [release_callback], and (in a generator function) yield.  The
    continuation of an operation receives its outcome, a returned value or
    a raised exception, so a body may catch what an operation raises.  [Y]
    is the type of yielded values: [Empty_set] for a function without
    [yield], [value] for a generator function. *)

(** How a suspended generator is resumed: by [next], or by [close], which
    raises [GeneratorExit] at the [yield]. *)
Inductive resume : Type := Next | Close.

Inductive prog (Y : Type) : Type :=
  | Return (v : value)
  | Raise (e : exn)
  | Call (target : value) (a : call_args) (k : outcome -> prog Y)
  | Release (target : value) (k : outcome -> prog Y)
  | Yield (y : Y) (k : resume -> prog Y).
Arguments Return {Y} v.
Arguments Raise {Y} e.
Arguments Call {Y} target a k.
Arguments Release {Y} target k.
Arguments Yield {Y} y k.

Inductive stop (Y : Type) : Type :=
  | Finished (o : outcome)
  | Suspended (y : Y) (k : resume -> prog Y).
Arguments Finished {Y} o.
Arguments Suspended {Y} y k.

(** The call [target(...)]: a token goes through [CallbackWrapper.__call__],
    anything else is applied directly. *)
Definition call_value (target : value) (a : call_args) : M value :=
  match target with
  | VToken l => CallbackWrapper_call l a
  | VPlain p => fun s => let s' := log (ECall p a) s in (apply_callable p a s', s')
  end.

Definition as_outcome (r : res plain) : outcome :=
  match r with
  | Ok p => Ok (VPlain p)
  | Err e => Err e
  end.

(** Runs a body up to its end or its next [yield]. *)
Fixpoint run {Y} (p : prog Y) (s : state) : stop Y * state :=
  match p with
  | Return v => (Finished (Ok v), s)
  | Raise e => (Finished (Err e), s)
  | Call target a k =>
      let '(o, s') := call_value target a s in run (k o) s'
  | Release target k =>
      let '(r, s') := release_callback target s in run (k (as_outcome r)) s'
  | Yield y k => (Suspended y k, s)
  end.

(** Runs a body up to the first operation it performs on the token [l]:
    the operation reached, as the rest of the program, and the store in
    which it is about to run.  [None] when the body ends or yields
    without having operated on the token. *)
Fixpoint until_token {Y} (l : loc) (p : prog Y) (s : state)
    : option (prog Y * state) :=
  match p with
  | Call target a k =>
      if decide (target = VToken l) then Some (p, s)
      else let '(o, s') := call_value target a s in until_token l (k o) s'
  | Release target k =>
      if decide (target = VToken l) then Some (p, s)
      else let '(r, s') := release_callback target s in
           until_token l (k (as_outcome r)) s'
  | _ => None
  end.

(** A call of a function without [yield]. *)
Definition exec (p : prog Empty_set) : M value := fun s =>
  match run p s with
  | (Finished o, s') => (o, s')
  | (Suspended y _, _) => match y with end
  end.

(** ** Signatures and decorated functions *)

Record param : Type := Param {
  p_name : string;
  p_default : option value
}.

(** [inspect.Signature]: the declared parameters, in order. *)
Definition signature := list param.

Definition parameters (sig : signature) : list string := p_name <$> sig.

Inductive code : Type :=
  | PlainCode (body : arguments -> prog Empty_set)
  | GeneratorCode (body : arguments -> prog value)
  | CoroutineCode (body : arguments -> prog Empty_set)
  | AsyncGenCode (body : arguments -> prog value).

Record function : Type := MkFunction {
  fn_name : string;
  fn_signature : signature;
  fn_code : code
}.

(** ** The reflection facility

    [inspect.Signature.bind] and [inspect.BoundArguments.apply_defaults]
    belong to the standard library, not to this module; the development
    is parametric in them. *)
Variable sig_bind : signature -> call_args -> res arguments.
Variable apply_defaults : signature -> arguments -> arguments.

Definition lift {A} (r : res A) : M A := fun s => (r, s).

Definition getitem (ba : arguments) (name : string) : M value :=
  match ba !! name with
  | Some v => ret v
  | None => raise (KeyError name)
  end.

(** [_bindargs_and_get_callobj] *)
Definition _bindargs_and_get_callobj
    (sig : signature) (callback_name : string) (a : call_args)
    : M (loc * arguments) :=
  do bound <- lift (sig_bind sig a) ;
  let bound_arguments := apply_defaults sig bound in
  do v <- getitem bound_arguments callback_name ;
  do callback_obj <- CallbackWrapper_init v ;
  ret (callback_obj, <[callback_name := VToken callback_obj]> bound_arguments).

(** ** The decorator *)

(** The closure [wrapper] that [decorator] returns: the decorated function
    (whose signature and shape were inspected at decoration time) and the
    captured [callback_name], [callback_args] and [callback_kwargs]. *)
Record wrapper : Type := Wrapper {
  w_funcobj : function;
  w_callback_name : string;
  w_callback_args : call_args
}.

Definition missing_parameter (funcobj : function) (callback_name : string) : exn :=
  ValueError ("Wrapped function '" +:+ fn_name funcobj
              +:+ "' has no parameter '" +:+ callback_name +:+ "'!").

(** The inner function [decorator] of [ensure_callback], with the
    [callback_name], [callback_args] and [callback_kwargs] it closes
    over.  Which of the four wrappers it returns is decided by the shape
    of [funcobj], kept in [fn_code]. *)
Definition decorator
    (callback_name : string) (callback_args : call_args) (funcobj : function)
    : res wrapper :=
  let sig := fn_signature funcobj in
  if decide (callback_name ∈ parameters sig)
  then Ok (Wrapper funcobj callback_name callback_args)
  else Err (missing_parameter funcobj callback_name).

(** [ensure_callback] *)
Definition ensure_callback (callback_name : string) (callback_args : call_args)
    : function -> res wrapper :=
  decorator callback_name callback_args.

(** The finalization step, the call of [callback_obj] on the captured
    [callback_args] and [callback_kwargs] in the [finally] clause, is
    [CallbackWrapper_call callback_obj (w_callback_args w)]. *)

(** The wrapper of a plain function (the last branch of [decorator]).  The
    decorated function is called with the rebound arguments, which is
    modelled as its body receiving the mapping of [bound_arguments]. *)
Definition plain_wrapper
    (w : wrapper) (body : arguments -> prog Empty_set) (a : call_args) : M value :=
  do '(callback_obj, bound_arguments) <-
    _bindargs_and_get_callobj (fn_signature (w_funcobj w)) (w_callback_name w) a ;
  try_finally
    (exec (body bound_arguments))
    (CallbackWrapper_call callback_obj (w_callback_args w)).

(** ** Generators *)

Definition GeneratorExit : exn := Exn "GeneratorExit" "".
Definition StopIteration : exn := Exn "StopIteration" "".

(** An exception leaving a generator frame: a [StopIteration] raised
    inside the frame is turned into a [RuntimeError] (PEP 479). *)
Definition leave_frame (e : exn) : exn :=
  if decide (exn_type e = "StopIteration")
  then RuntimeError "generator raised StopIteration"
  else e.

(** The generator object made by calling a generator function. *)
Inductive generator : Type :=
  | Unstarted (p : prog value)
  | AtYield (k : resume -> prog value)
  | Closed.

Inductive next_result : Type :=
  | Yields (v : value)
  | Stops (v : value)      (* StopIteration(v): the generator returned [v] *)
  | Raises (e : exn).

Definition gen_resume (p : prog value) (s : state) : (generator * next_result) * state :=
  match run p s with
  | (Suspended y k, s') => ((AtYield k, Yields y), s')
  | (Finished (Ok v), s') => ((Closed, Stops v), s')
  | (Finished (Err e), s') => ((Closed, Raises (leave_frame e)), s')
  end.

(** [next(g)] *)
Definition gen_next (g : generator) (s : state) : (generator * next_result) * state :=
  match g with
  | Unstarted p => gen_resume p s
  | AtYield k => gen_resume (k Next) s
  | Closed => ((Closed, Stops VNone), s)
  end.

(** [g.close()]: [None] when it returns, [Some e] when it raises [e]. *)
Definition gen_close (g : generator) (s : state) : (generator * option exn) * state :=
  match g with
  | Unstarted _ => ((Closed, None), s)
  | Closed => ((Closed, None), s)
  | AtYield k =>
      match run (k Close) s with
      | (Suspended _ k', s') =>
          ((AtYield k', Some (RuntimeError "generator ignored GeneratorExit")), s')
      | (Finished (Ok _), s') => ((Closed, None), s')
      | (Finished (Err e), s') =>
          if decide (exn_type e = "GeneratorExit")
          then ((Closed, None), s')
          else ((Closed, Some (leave_frame e)), s')
      end
  end.

(** The frame of the generator wrapper (the third branch of [decorator]):
    not yet started, suspended inside [yield from] on the generator of the
    decorated function, or unwound. *)
Inductive frame : Type :=
  | Created (a : call_args)
  | Delegating (callback_obj : loc) (inner : generator)
  | Unwound.

(** The [finally] clause of the generator wrapper, reached with the
    exception [pending] in flight ([None] after a normal end of the
    [try] block). *)
Definition gen_finally (w : wrapper) (callback_obj : loc) (pending : option exn)
    (s : state) : option exn * state :=
  match CallbackWrapper_call callback_obj (w_callback_args w) s with
  | (Ok _, s') => (pending, s')
  | (Err e, s') => (Some (leave_frame e), s')
  end.

(** One round of [yield from inner] after a [next] on the wrapper.  When
    the inner generator returns [v], that is the value of the [yield from]
    expression, which the wrapper does not use: after the [finally] clause
    the wrapper falls off its end and so returns [None]. *)
Definition delegate_next (w : wrapper) (callback_obj : loc) (inner : generator)
    (s : state) : (frame * next_result) * state :=
  match gen_next inner s with
  | ((inner', Yields v), s1) => ((Delegating callback_obj inner', Yields v), s1)
  | ((_, Stops _), s1) =>
      match gen_finally w callback_obj None s1 with
      | (None, s2) => ((Unwound, Stops VNone), s2)
      | (Some e, s2) => ((Unwound, Raises e), s2)
      end
  | ((_, Raises e), s1) =>
      match gen_finally w callback_obj (Some e) s1 with
      | (None, s2) => ((Unwound, Stops VNone), s2)
      | (Some e', s2) => ((Unwound, Raises e'), s2)
      end
  end.

(** [next] on the generator returned by the wrapper. *)
Definition wrapper_next (w : wrapper) (body : arguments -> prog value) (fr : frame)
    (s : state) : (frame * next_result) * state :=
  match fr with
  | Created a =>
      match _bindargs_and_get_callobj
              (fn_signature (w_funcobj w)) (w_callback_name w) a s with
      | (Err e, s1) => ((Unwound, Raises (leave_frame e)), s1)
      | (Ok (callback_obj, bound_arguments), s1) =>
          delegate_next w callback_obj (Unstarted (body bound_arguments)) s1
      end
  | Delegating callback_obj inner => delegate_next w callback_obj inner s
  | Unwound => ((Unwound, Stops VNone), s)
  end.

(** [close] on the generator returned by the wrapper.  [GeneratorExit] is
    raised at the [yield from], which first closes the inner generator;
    what that raises, or else [GeneratorExit] itself, then passes through
    the [finally] clause. *)
Definition wrapper_close (w : wrapper) (fr : frame)
    (s : state) : (frame * option exn) * state :=
  match fr with
  | Created _ => ((Unwound, None), s)
  | Unwound => ((Unwound, None), s)
  | Delegating callback_obj inner =>
      let '((_, r), s1) := gen_close inner s in
      let pending := match r with Some e => e | None => GeneratorExit end in
      match gen_finally w callback_obj (Some pending) s1 with
      | (Some e, s2) =>
          if decide (exn_type e = "GeneratorExit")
          then ((Unwound, None), s2)
          else ((Unwound, Some e), s2)
      | (None, s2) => ((Unwound, None), s2)
      end
  end.

(** ** Calling a wrapper *)

Inductive called : Type :=
  | Returns (v : value)
  | NewGenerator (fr : frame)
  (** A coroutine or asynchronous generator object; its evaluation under
      an event loop is not part of this development. *)
  | NewAwaitable.

Definition returns (o : outcome) : res called :=
  match o with
  | Ok v => Ok (Returns v)
  | Err e => Err e
  end.

Definition call_wrapper (w : wrapper) (a : call_args) : M called :=
  match fn_code (w_funcobj w) with
  | PlainCode body => do v <- plain_wrapper w body a ; ret (Returns v)
  | GeneratorCode _ => ret (NewGenerator (Created a))
  | CoroutineCode _ | AsyncGenCode _ => ret NewAwaitable
  end.

(** What the finalization step gives when it finds [q] in the token and
    the [try] block ended with [o]. *)
Definition finalized (q : plain) (ca : call_args) (s3 : state) (o : outcome)
    : res called :=
  match q with
  | PNone => returns o
  | _ =>
      match apply_callable q ca s3 with
      | Ok _ => returns o
      | Err e => Err e
      end
  end.

(** ** Iterating a generator *)

Definition yielded (r : next_result) : option value :=
  match r with
  | Yields v => Some v
  | _ => None
  end.

(** [n] times [next] on the generator returned by the wrapper. *)
Fixpoint iterate (w : wrapper) (body : arguments -> prog value) (n : nat)
    (fr : frame) (s : state) : (frame * list next_result) * state :=
  match n with
  | O => ((fr, []), s)
  | S n' =>
      let '((fr1, r), s1) := wrapper_next w body fr s in
      let '((fr2, rs), s2) := iterate w body n' fr1 s1 in
      ((fr2, r :: rs), s2)
  end.

(** [n] times [next] on a generator of the decorated function itself. *)
Fixpoint gen_iterate (n : nat) (g : generator) (s : state)
    : (generator * list next_result) * state :=
  match n with
  | O => ((g, []), s)
  | S n' =>
      let '((g1, r), s1) := gen_next g s in
      let '((g2, rs), s2) := gen_iterate n' g1 s1 in
      ((g2, r :: rs), s2)
  end.

(** ** Consumers of a generator *)

(** What the consumer saw of one operation on the generator. *)
Inductive observed : Type :=
  | NextGave (r : next_result)
  | CloseGave (r : option exn).

(** A consumer performs [next] and [close] on the generator returned by
    the wrapper, in the order of [script], going on whatever they raise. *)
Fixpoint consume (w : wrapper) (body : arguments -> prog value)
    (script : list resume) (fr : frame) (s : state)
    : (frame * list observed) * state :=
  match script with
  | [] => ((fr, []), s)
  | Next :: script' =>
      let '((fr1, r), s1) := wrapper_next w body fr s in
      let '((fr2, os), s2) := consume w body script' fr1 s1 in
      ((fr2, NextGave r :: os), s2)
  | Close :: script' =>
      let '((fr1, r), s1) := wrapper_close w fr s in
      let '((fr2, os), s2) := consume w body script' fr1 s1 in
      ((fr2, CloseGave r :: os), s2)
  end.

(** What is left of a result of [next] on the generator of the decorated
    function once it has passed through the wrapper: the value a
    generator returns is not handed on. *)
Definition drop_return (r : next_result) : next_result :=
  match r with
  | Stops _ => Stops VNone
  | _ => r
  end.

(** What a consumer sees of a generator that has unwound. *)
Definition spent (op : resume) : observed :=
  match op with
  | Next => NextGave (Stops VNone)
  | Close => CloseGave None
  end.

(** ** Chains of wrapped calls

    The functions of the examples in the docstring of the module, as
    [def function_a(callme): function_b(callme)]: a decorated plain function
    whose body does nothing but call the next decorated function, on
    arguments [lv_pass bound_arguments] made from its own, and then falls
    off its end.  The last function of the chain has an arbitrary body. *)
Record level : Type := Level {
  lv_signature : signature;
  lv_callback_name : string;
  lv_callback_args : call_args;
  lv_pass : arguments -> call_args
}.

Fixpoint chain (levels : list level) (w : wrapper)
    (body : arguments -> prog Empty_set) (a : call_args) : M value :=
  match levels with
  | [] => plain_wrapper w body a
  | lv :: rest =>
      do '(callback_obj, bound_arguments) <-
        _bindargs_and_get_callobj (lv_signature lv) (lv_callback_name lv) a ;
      try_finally
        (do _ <- chain rest w body (lv_pass lv bound_arguments) ; ret VNone)
        (CallbackWrapper_call callback_obj (lv_callback_args lv))
  end.

(** The signature and the callback parameter of the function that a call
    of the chain enters first. *)
Definition entry (levels : list level) (w : wrapper) : signature * string :=
  match levels with
  | [] => (fn_signature (w_funcobj w), w_callback_name w)
  | lv :: _ => (lv_signature lv, lv_callback_name lv)
  end.

(** Binding the arguments [a] puts [v] in the callback slot. *)
Definition binds_callback (slot : signature * string) (a : call_args) (v : value)
    : Prop :=
  exists bound,
    sig_bind slot.1 a = Ok bound /\
    apply_defaults slot.1 bound !! slot.2 = Some v.

(** The body of a level hands the token it received on to the next
    function. *)
Definition hands_on (lv : level) (next : signature * string) : Prop :=
  forall ba l,
    ba !! lv_callback_name lv = Some (VToken l) ->
    binds_callback next (lv_pass lv ba) (VToken l).

Fixpoint linked (levels : list level) (w : wrapper) : Prop :=
  match levels with
  | [] => True
  | lv :: rest => hands_on lv (entry rest w) /\ linked rest w
  end.

(** The value [v] is the raw value [p], or a token that holds [p]. *)
Definition holds (s : state) (v : value) (p : plain) : Prop :=
  match v with
  | VPlain q => q = p
  | VToken l => heap s !! l = Some p
  end.

(** What the caller of the chain gets when the last wrapped call gives
    [r]: every function above the last one returns [None]. *)
Definition passes_up (levels : list level) (r : outcome) : outcome :=
  match levels, r with
  | [], _ => r
  | _ :: _, Ok _ => Ok VNone
  | _ :: _, Err e => Err e
  end.

Definition is_move (e : event) : Prop :=
  exists l q, e = ERelease l q.

Definition is_noop_invoke (e : event) : Prop :=
  exists l a, e = EInvoke l a PNone.

(** ** Fixtures for the examples

    A binder for signatures whose parameters are all positional-or-keyword,
    some callables, and the bodies of the functions of the test suite. *)

Fixpoint kw_get (name : string) (kw : list (string * value)) : option value :=
  match kw with
  | [] => None
  | (n, v) :: kw' => if decide (n = name) then Some v else kw_get name kw'
  end.

Fixpoint kw_del (name : string) (kw : list (string * value))
    : list (string * value) :=
  match kw with
  | [] => []
  | (n, v) :: kw' =>
      if decide (n = name) then kw_del name kw' else (n, v) :: kw_del name kw'
  end.

(** The positional arguments go to the parameters in order; what is left
    of the signature is returned with the arguments bound so far. *)
Fixpoint bind_positional (sig : signature) (pos : list value)
    (kw : list (string * value)) (acc : arguments) : res (arguments * signature) :=
  match pos, sig with
  | [], _ => Ok (acc, sig)
  | v :: pos', p :: sig' =>
      match kw_get (p_name p) kw with
      | Some _ =>
          Err (TypeError ("multiple values for argument '" +:+ p_name p +:+ "'"))
      | None => bind_positional sig' pos' kw (<[p_name p := v]> acc)
      end
  | _ :: _, [] => Err (TypeError "too many positional arguments")
  end.

(** The remaining parameters, in order, take their keyword argument; one
    that has neither a keyword argument nor a default is missing; keyword
    arguments that no parameter took are unexpected. *)
Fixpoint bind_keywords (rest : signature) (kw : list (string * value))
    (acc : arguments) : res arguments :=
  match rest with
  | [] =>
      match kw with
      | [] => Ok acc
      | (name, _) :: _ =>
          Err (TypeError ("got an unexpected keyword argument '" +:+ name +:+ "'"))
      end
  | p :: rest' =>
      match kw_get (p_name p) kw, p_default p with
      | Some v, _ =>
          bind_keywords rest' (kw_del (p_name p) kw) (<[p_name p := v]> acc)
      | None, Some _ => bind_keywords rest' kw acc
      | None, None =>
          Err (TypeError ("missing a required argument: '" +:+ p_name p +:+ "'"))
      end
  end.

Definition simple_bind (sig : signature) (a : call_args) : res arguments :=
  match bind_positional sig (positional a) (keywords a) ∅ with
  | Err e => Err e
  | Ok (acc, rest) => bind_keywords rest (keywords a) acc
  end.

Definition simple_defaults (sig : signature) (acc : arguments) : arguments :=
  foldr (fun p acc =>
           match acc !! p_name p, p_default p with
           | None, Some d => <[p_name p := d]> acc
           | _, _ => acc
           end) acc sig.

(** Callables: ["bad"] raises, every other one returns [None]. *)
Definition sample_behaviour (f : fn_id) (a : call_args) (s : state) : outcome :=
  if decide (f = "bad") then Err (Exn "OSError" "callback failed") else Ok VNone.

(** Continues with [k] on a returned value and lets an exception through. *)
Definition uncaught {Y} (k : value -> prog Y) (o : outcome) : prog Y :=
  match o with
  | Ok v => k v
  | Err e => Raise e
  end.

(** The value bound to the parameter [callback]. *)
Definition the_callback (ba : arguments) : value :=
  default VNone (ba !! "callback").

Definition sig_callback : signature := [Param "callback" None].
Definition one : call_args := CallArgs [VPlain (PInt 1)] [].
Definition empty_state : state := State [] [].

(** [def myfu(callback): return 5] *)
Definition body_return : arguments -> prog Empty_set :=
  fun _ => Return (VPlain (PInt 5)).

(** [def myfu(callback): raise RuntimeError("test")] *)
Definition body_raise : arguments -> prog Empty_set :=
  fun _ => Raise (RuntimeError "test").

(** [def myfu(callback): callback(1); return "string_res"] *)
Definition body_invoke : arguments -> prog Empty_set :=
  fun ba => Call (the_callback ba) one
              (uncaught (fun _ => Return (VPlain (PStr "string_res")))).

(** [def myfu(callback): callback(2); callback(1); return "string_res"] *)
Definition two : call_args := CallArgs [VPlain (PInt 2)] [].

Definition body_invoke_twice : arguments -> prog Empty_set :=
  fun ba => Call (the_callback ba) two
              (uncaught (fun _ => Call (the_callback ba) one
                 (uncaught (fun _ => Return (VPlain (PStr "string_res")))))).

(** [def myfu(callback): release_callback(callback)] *)
Definition body_release : arguments -> prog Empty_set :=
  fun ba => Release (the_callback ba) (uncaught (fun _ => Return VNone)).

(** [def myfu(callback): release_callback(callback); raise RuntimeError("test")] *)
Definition body_release_raise : arguments -> prog Empty_set :=
  fun ba => Release (the_callback ba)
              (uncaught (fun _ => Raise (RuntimeError "test"))).

(** [def g(callback): yield 1; yield 2].  A [close] at a [yield] is not
    caught: [GeneratorExit] leaves the body. *)
Definition on_next {Y} (p : prog Y) (r : resume) : prog Y :=
  match r with
  | Next => p
  | Close => Raise GeneratorExit
  end.

Definition body_yield_twice : arguments -> prog value :=
  fun _ => Yield (VPlain (PInt 1))
             (on_next (Yield (VPlain (PInt 2)) (on_next (Return VNone)))).

(** [def g(callback): yield 1; return 7] *)
Definition body_yield_return : arguments -> prog value :=
  fun _ => Yield (VPlain (PInt 1)) (on_next (Return (VPlain (PInt 7)))).

Definition fn_plain (body : arguments -> prog Empty_set) : function :=
  MkFunction "myfu" sig_callback (PlainCode body).

Definition fn_generator (body : arguments -> prog value) : function :=
  MkFunction "g" sig_callback (GeneratorCode body).

Definition to (f : fn_id) : call_args := CallArgs [VPlain (PFun f)] [].

(** The bound arguments once the token [l] has replaced the callback, and
    the store in which the token [0] alone exists, holding [f]. *)
Definition bound_token (l : loc) : arguments := <["callback" := VToken l]> ∅.

(** The arguments of [function_b(callme)] in the body of [function_a]. *)
Definition pass_callback (ba : arguments) : call_args :=
  CallArgs [the_callback ba] [].
Definition holding (f : fn_id) : state := State [PFun f] [].

(** * Properties *)

(** ** Traces *)

Lemma since_app (s s' : state) (t : list event) :
  trace s' = trace s ++ t -> since s s' = t.
Proof.
  intros E. unfold since. rewrite E. apply drop_app_length.
Qed.

Lemma since_refl (s : state) : since s s = [].
Proof. apply since_app. by rewrite app_nil_r. Qed.

Lemma token_events_app (l : loc) (t1 t2 : list event) :
  token_events l (t1 ++ t2) = token_events l t1 ++ token_events l t2.
Proof.
  induction t1 as [|e t1 IH]; simpl; [done|].
  destruct (on_token l e); simpl; by rewrite IH.
Qed.

Lemma consumptions_app (l : loc) (t1 t2 : list event) :
  consumptions l (t1 ++ t2) = consumptions l t1 ++ consumptions l t2.
Proof.
  induction t1 as [|e t1 IH]; simpl; [done|].
  destruct (consuming l e); simpl; by rewrite IH.
Qed.

Lemma token_calls_app (l : loc) (t1 t2 : list event) :
  token_calls l (t1 ++ t2) = token_calls l t1 ++ token_calls l t2.
Proof.
  induction t1 as [|e t1 IH]; simpl; [done|].
  destruct e; try done.
  destruct (consuming l _); simpl; by rewrite IH.
Qed.

Lemma calls_to_app (f : fn_id) (t1 t2 : list event) :
  calls_to f (t1 ++ t2) = calls_to f t1 ++ calls_to f t2.
Proof.
  induction t1 as [|e t1 IH]; simpl; [done|].
  destruct e as [? ? []|?|[] ?]; try done;
    case_decide; simpl; by rewrite IH.
Qed.

Lemma after_app (l : loc) (q : plain) (t1 t2 : list event) :
  after l q (t1 ++ t2) = after l (after l q t1) t2.
Proof.
  unfold after. rewrite token_events_app.
  destruct (token_events l t1), (token_events l t2); done.
Qed.

Lemma coherent_app (l : loc) (q : plain) (t1 t2 : list event) :
  coherent l q (t1 ++ t2) <-> coherent l q t1 /\ coherent l (after l q t1) t2.
Proof.
  revert q. induction t1 as [|e t1 IH]; intros q; simpl.
  - unfold after; simpl. tauto.
  - unfold after in *. simpl. destruct (on_token l e); simpl.
    + rewrite IH. destruct (token_events l t1); tauto.
    + apply IH.
Qed.

Lemma no_events_no_calls (l : loc) (t : list event) :
  token_events l t = [] -> token_calls l t = [] /\ consumptions l t = [].
Proof.
  induction t as [|e t IH]; simpl; [done|].
  unfold consuming. destruct e as [l' a p|l' p|p a]; simpl; auto;
    destruct (bool_decide (l' = l)); simpl; try done; auto.
Qed.

Lemma coherent_empty (l : loc) (t : list event) :
  coherent l PNone t -> token_calls l t = [] /\ consumptions l t = [].
Proof.
  induction t as [|e t IH]; simpl; [done|].
  unfold consuming. destruct (on_token l e) eqn:E.
  - intros [F C]. destruct e; simpl in *; rewrite ?E; subst; simpl; auto.
  - intros C. destruct e; simpl in *; rewrite ?E; simpl; auto.
Qed.

(** The first operation on a token is the only one that can consume. *)
Lemma coherent_first (l : loc) (q : plain) (t : list event) :
  coherent l q t ->
  token_events l t = [] \/
  exists t1 e t2,
    t = t1 ++ e :: t2 /\ token_events l t1 = [] /\
    on_token l e = true /\ found e = q /\ coherent l PNone t2.
Proof.
  induction t as [|e t IH]; simpl; [by left|].
  destruct (on_token l e) eqn:E.
  - intros [F C]. right. exists [], e, t. by rewrite E.
  - intros C. destruct (IH C) as [N|(t1 & e' & t2 & -> & N & O & F & C')].
    + by left.
    + right. exists (e :: t1), e', t2. simpl. by rewrite E.
Qed.

Lemma coherent_at_most_once (l : loc) (q : plain) (t : list event) :
  coherent l q t -> length (consumptions l t) <= 1.
Proof.
  intros C. destruct (coherent_first _ _ _ C) as [N|(t1 & e & t2 & -> & N & O & F & C')].
  - apply no_events_no_calls in N as [_ ->]. simpl. lia.
  - rewrite consumptions_app. simpl.
    apply no_events_no_calls in N as [_ ->].
    apply coherent_empty in C' as [_ ->].
    destruct (consuming l e); simpl; lia.
Qed.

Lemma consumed_after (l : loc) (q : plain) (t : list event) :
  consumptions l t <> [] -> after l q t = PNone.
Proof.
  intros N. unfold after. destruct (token_events l t) eqn:E; [|done].
  apply no_events_no_calls in E as [_ E]. done.
Qed.

(** ** Single operations on a token *)

Lemma call_spec (l : loc) (a : call_args) (s : state) (q : plain) :
  heap s !! l = Some q ->
  exists o s',
    CallbackWrapper_call l a s = (o, s') /\
    trace s' = trace s ++ [EInvoke l a q] /\
    heap s' = <[l := PNone]> (heap s) /\
    o = match q with PNone => Ok VNone | _ => apply_callable q a s' end.
Proof.
  intros H. unfold CallbackWrapper_call. rewrite H.
  destruct q; eexists _, _; (split; [reflexivity|]); simpl;
    repeat split; try done.
  symmetry. by apply list_insert_id.
Qed.

Lemma release_spec (l : loc) (s : state) (q : plain) :
  heap s !! l = Some q ->
  exists r s',
    CallbackWrapper_release l s = (r, s') /\
    trace s' = trace s ++ [ERelease l q] /\
    heap s' = <[l := PNone]> (heap s) /\
    r = match q with PNone => Err already_released | _ => Ok q end.
Proof.
  intros H. unfold CallbackWrapper_release. rewrite H.
  destruct q; eexists _, _; (split; [reflexivity|]); simpl;
    repeat split; try done.
  symmetry. by apply list_insert_id.
Qed.

Lemma call_unallocated (l : loc) (a : call_args) (s : state) :
  heap s !! l = None -> CallbackWrapper_call l a s = (Err no_callobj, s).
Proof. intros H. unfold CallbackWrapper_call. by rewrite H. Qed.

Lemma release_unallocated (l : loc) (s : state) :
  heap s !! l = None -> CallbackWrapper_release l s = (Err no_callobj, s).
Proof. intros H. unfold CallbackWrapper_release. by rewrite H. Qed.

(** ** Stores only evolve *)

Lemma evolves_refl (s : state) : evolves s s.
Proof.
  exists []. rewrite app_nil_r. repeat split; try done.
Qed.

Lemma evolves_trans (s1 s2 s3 : state) :
  evolves s1 s2 -> evolves s2 s3 -> evolves s1 s3.
Proof.
  intros (t1 & T1 & L1 & H1) (t2 & T2 & L2 & H2).
  exists (t1 ++ t2). rewrite T2, T1, app_assoc. split; [done|].
  split; [lia|]. intros l q Hq.
  destruct (H1 l q Hq) as [C1 A1]. destruct (H2 l _ A1) as [C2 A2].
  split; [by apply coherent_app | by rewrite after_app].
Qed.

(** An operation on the allocated token [l0] that logs one event and
    clears the token. *)
Lemma evolves_token_op (l0 : loc) (e : event) (q0 : plain) (s s' : state) :
  heap s !! l0 = Some q0 ->
  on_token l0 e = true -> (forall l, on_token l e = true -> l = l0) ->
  found e = q0 ->
  trace s' = trace s ++ [e] ->
  heap s' = <[l0 := PNone]> (heap s) ->
  evolves s s'.
Proof.
  intros H0 On Only F T Hp. exists [e]. split; [done|].
  rewrite Hp, length_insert. split; [done|].
  intros l q Hq. unfold after. simpl.
  destruct (on_token l e) eqn:E.
  - apply Only in E as ->. rewrite H0 in Hq. injection Hq as <-.
    repeat split; [done|].
    apply list_lookup_insert_eq. by eapply lookup_lt_Some.
  - split; [done|]. rewrite list_lookup_insert_ne; [done|].
    intros ->. by rewrite On in E.
Qed.

Lemma on_token_invoke (l l0 : loc) (a : call_args) (q : plain) :
  on_token l (EInvoke l0 a q) = true -> l = l0.
Proof. simpl. intros H. by apply bool_decide_eq_true in H. Qed.

Lemma on_token_release (l l0 : loc) (q : plain) :
  on_token l (ERelease l0 q) = true -> l = l0.
Proof. simpl. intros H. by apply bool_decide_eq_true in H. Qed.

Lemma evolves_call (l : loc) (a : call_args) (s : state) :
  evolves s (snd (CallbackWrapper_call l a s)).
Proof.
  destruct (heap s !! l) as [q|] eqn:H.
  - destruct (call_spec l a s q H) as (o & s' & -> & T & Hp & _). simpl.
    eapply (evolves_token_op l (EInvoke l a q)); eauto.
    + simpl. by apply bool_decide_eq_true.
    + intros l'. apply on_token_invoke.
  - rewrite call_unallocated by done. apply evolves_refl.
Qed.

Lemma evolves_release (l : loc) (s : state) :
  evolves s (snd (CallbackWrapper_release l s)).
Proof.
  destruct (heap s !! l) as [q|] eqn:H.
  - destruct (release_spec l s q H) as (o & s' & -> & T & Hp & _). simpl.
    eapply (evolves_token_op l (ERelease l q)); eauto.
    + simpl. by apply bool_decide_eq_true.
    + intros l'. apply on_token_release.
  - rewrite release_unallocated by done. apply evolves_refl.
Qed.

Lemma evolves_log_call (p : plain) (a : call_args) (s : state) :
  evolves s (log (ECall p a) s).
Proof.
  exists [ECall p a]. repeat split; try done.
Qed.

Lemma evolves_call_value (target : value) (a : call_args) (s : state) :
  evolves s (snd (call_value target a s)).
Proof.
  destruct target; simpl; [apply evolves_log_call | apply evolves_call].
Qed.

Lemma evolves_release_callback (target : value) (s : state) :
  evolves s (snd (release_callback target s)).
Proof.
  destruct target; simpl; [apply evolves_refl | apply evolves_release].
Qed.

Lemma evolves_run {Y} (p : prog Y) (s : state) :
  evolves s (snd (run p s)).
Proof.
  revert s. induction p as [v|e|target a k IH|target k IH|y k IH]; intros s; simpl;
    try apply evolves_refl.
  - pose proof (evolves_call_value target a s) as E.
    destruct (call_value target a s) as [o s1]. simpl in E.
    eapply evolves_trans; [exact E | apply IH].
  - pose proof (evolves_release_callback target s) as E.
    destruct (release_callback target s) as [r s1]. simpl in E.
    eapply evolves_trans; [exact E | apply IH].
Qed.

Lemma exec_run (p : prog Empty_set) (s : state) :
  exists o, run p s = (Finished o, snd (exec p s)) /\ fst (exec p s) = o.
Proof.
  unfold exec. destruct (run p s) as [[o|[]] s']. by exists o.
Qed.

Lemma evolves_exec (p : prog Empty_set) (s : state) :
  evolves s (snd (exec p s)).
Proof.
  destruct (exec_run p s) as (o & R & _).
  pose proof (evolves_run p s) as E. by rewrite R in E.
Qed.

(** ** Empty tokens stay empty *)

Lemma after_none (l : loc) (t : list event) : after l PNone t = PNone.
Proof. unfold after. by destruct (token_events l t). Qed.

Lemma evolves_empty (l : loc) (s s' : state) :
  evolves s s' -> heap s !! l = Some PNone -> heap s' !! l = Some PNone.
Proof.
  intros (t & _ & _ & H) E. destruct (H l _ E) as [_ A].
  by rewrite after_none in A.
Qed.

Lemma do_op_idle (l : loc) (op : token_op) (s : state) :
  heap s !! l = Some PNone ->
  do_op l op s = (idle op, log (idle_event l op) s).
Proof.
  intros H. destruct op; simpl.
  - unfold CallbackWrapper_call. by rewrite H.
  - unfold bind, CallbackWrapper_release. by rewrite H.
Qed.

Lemma evolves_do_op (l : loc) (op : token_op) (s : state) :
  evolves s (snd (do_op l op s)).
Proof.
  destruct op; simpl; [apply evolves_call|].
  unfold bind. pose proof (evolves_release l s) as E.
  by destruct (CallbackWrapper_release l s) as [[?|?] ?].
Qed.

Lemma do_op_unallocated (l : loc) (op : token_op) (s : state) :
  heap s !! l = None -> snd (do_op l op s) = s.
Proof.
  intros H. destruct op; simpl.
  - by rewrite call_unallocated.
  - unfold bind. by rewrite release_unallocated.
Qed.

Lemma run_ops_app (l : loc) (ops1 ops2 : list token_op) (s : state) :
  run_ops l (ops1 ++ ops2) s =
  (fst (run_ops l ops1 s) ++ fst (run_ops l ops2 (snd (run_ops l ops1 s))),
   snd (run_ops l ops2 (snd (run_ops l ops1 s)))).
Proof.
  revert s. induction ops1 as [|op ops1 IH]; intros s; simpl.
  - by destruct (run_ops l ops2 s).
  - destruct (do_op l op s) as [o s1]. rewrite IH.
    destruct (run_ops l ops1 s1) as [rs1 s2]. simpl.
    by destruct (run_ops l ops2 s2).
Qed.

Lemma length_run_ops (l : loc) (ops : list token_op) (s : state) :
  length (fst (run_ops l ops s)) = length ops.
Proof.
  revert s. induction ops as [|op ops IH]; intros s; simpl; [done|].
  destruct (do_op l op s) as [o s1]. specialize (IH s1).
  destruct (run_ops l ops s1). simpl in *. by rewrite IH.
Qed.

Lemma evolves_run_ops (l : loc) (ops : list token_op) (s : state) :
  evolves s (snd (run_ops l ops s)).
Proof.
  revert s. induction ops as [|op ops IH]; intros s; simpl; [apply evolves_refl|].
  pose proof (evolves_do_op l op s) as E.
  destruct (do_op l op s) as [o s1]. specialize (IH s1).
  destruct (run_ops l ops s1). simpl in *. by eapply evolves_trans.
Qed.

Lemma run_ops_unallocated (l : loc) (ops : list token_op) (s : state) :
  heap s !! l = None -> snd (run_ops l ops s) = s.
Proof.
  intros H. induction ops as [|op ops IH]; simpl; [done|].
  pose proof (do_op_unallocated l op s H) as E.
  destruct (do_op l op s) as [o s1]. simpl in E. subst s1.
  by destruct (run_ops l ops s).
Qed.

Lemma run_ops_idle (l : loc) (ops : list token_op) (s : state) :
  heap s !! l = Some PNone ->
  fst (run_ops l ops s) = idle <$> ops /\
  heap (snd (run_ops l ops s)) !! l = Some PNone /\
  consumptions l (since s (snd (run_ops l ops s))) = [].
Proof.
  intros H. split; [|split].
  - revert s H. induction ops as [|op ops IH]; intros s H; simpl; [done|].
    rewrite do_op_idle by done.
    specialize (IH (log (idle_event l op) s) H).
    destruct (run_ops l ops _). simpl in *. by rewrite IH.
  - eapply evolves_empty; [apply evolves_run_ops | done].
  - destruct (evolves_run_ops l ops s) as (t & T & _ & C).
    rewrite (since_app _ _ _ T). destruct (C l _ H) as [Co _].
    by apply coherent_empty in Co as [_ ?].
Qed.

(** What [__init__] does on each kind of argument. *)
Lemma init_plain (p : plain) (s : state) :
  CallbackWrapper_init (VPlain p) s =
  (Ok (length (heap s)), State (heap s ++ [p]) (trace s)).
Proof. reflexivity. Qed.

Lemma init_token (l : loc) (q : plain) (s : state) :
  heap s !! l = Some q -> q <> PNone ->
  CallbackWrapper_init (VToken l) s =
  (Ok (length (heap s)),
   State (<[l := PNone]> (heap s) ++ [q]) (trace s ++ [ERelease l q])).
Proof.
  intros H N. unfold CallbackWrapper_init, bind. simpl.
  unfold CallbackWrapper_release. rewrite H.
  destruct q; try done; simpl; by rewrite length_insert.
Qed.

Lemma init_token_empty (l : loc) (s : state) :
  heap s !! l = Some PNone ->
  CallbackWrapper_init (VToken l) s =
  (Err already_released, log (ERelease l PNone) s).
Proof.
  intros H. unfold CallbackWrapper_init, bind. simpl.
  unfold CallbackWrapper_release. by rewrite H.
Qed.

Lemma init_token_unallocated (l : loc) (s : state) :
  heap s !! l = None ->
  CallbackWrapper_init (VToken l) s = (Err no_callobj, s).
Proof.
  intros H. unfold CallbackWrapper_init, bind. simpl.
  by rewrite release_unallocated.
Qed.

(** ** The binder *)

Lemma bindargs_spec (sig : signature) (cb : string) (a : call_args)
    (s0 s1 : state) (l : loc) (ba : arguments) :
  _bindargs_and_get_callobj sig cb a s0 = (Ok (l, ba), s1) ->
  l = length (heap s0) /\
  ba !! cb = Some (VToken l) /\
  exists t q,
    trace s1 = trace s0 ++ t /\
    heap s1 !! l = Some q /\
    token_events l t = [] /\
    (forall f, calls_to f t = []).
Proof.
  unfold _bindargs_and_get_callobj, bind, lift, getitem.
  destruct (sig_bind sig a) as [bound|e]; [|discriminate].
  destruct (apply_defaults sig bound !! cb) as [v|] eqn:Hv; [|discriminate].
  unfold ret at 1.
  destruct v as [p|l0].
  - rewrite init_plain. unfold ret. intros [= <- <- <-].
    split; [done|]. split; [by rewrite lookup_insert_eq|].
    exists [], p. simpl. rewrite app_nil_r.
    repeat split; try done. by rewrite lookup_app_r, Nat.sub_diag.
  - destruct (heap s0 !! l0) as [q|] eqn:H0.
    + destruct (decide (q = PNone)) as [->|N].
      * rewrite init_token_empty by done. discriminate.
      * rewrite (init_token _ _ _ H0 N). unfold ret. intros [= <- <- <-].
        split; [done|]. split; [by rewrite lookup_insert_eq|].
        exists [ERelease l0 q], q. simpl.
        assert (l0 < length (heap s0)) by (by eapply lookup_lt_Some).
        repeat split; try done.
        -- rewrite lookup_app_r by (rewrite length_insert; lia).
           by rewrite length_insert, Nat.sub_diag.
        -- rewrite bool_decide_eq_false_2 by lia. done.
    + rewrite init_token_unallocated by done. discriminate.
Qed.

Lemma evolves_alloc (p : plain) (s : state) :
  evolves s (snd (alloc p s)).
Proof.
  exists []. simpl. rewrite app_nil_r, length_app. split; [done|].
  split; [lia|]. intros l q H. split; [done|].
  unfold after. simpl. rewrite lookup_app_l; [done|]. by eapply lookup_lt_Some.
Qed.

Lemma evolves_init (v : value) (s : state) :
  evolves s (snd (CallbackWrapper_init v s)).
Proof.
  unfold CallbackWrapper_init, bind.
  pose proof (evolves_release_callback v s) as E.
  destruct (release_callback v s) as [[p|e] s1]; simpl in *; [|done].
  eapply evolves_trans; [exact E | apply (evolves_alloc p s1)].
Qed.

Lemma evolves_bindargs (sig : signature) (cb : string) (a : call_args) (s : state) :
  evolves s (snd (_bindargs_and_get_callobj sig cb a s)).
Proof.
  unfold _bindargs_and_get_callobj, bind, lift, getitem.
  destruct (sig_bind sig a) as [bound|e]; [|apply evolves_refl].
  destruct (apply_defaults sig bound !! cb) as [v|]; [|apply evolves_refl].
  unfold ret at 1. pose proof (evolves_init v s) as E.
  by destruct (CallbackWrapper_init v s) as [[?|?] ?].
Qed.

(** ** The wrapper of a plain function, phase by phase *)

Lemma ensure_callback_ok (cb : string) (ca : call_args) (fo : function) (w : wrapper) :
  ensure_callback cb ca fo = Ok w ->
  w = Wrapper fo cb ca /\ cb ∈ parameters (fn_signature fo).
Proof.
  unfold ensure_callback, decorator. case_decide; [|discriminate]. by intros [= <-].
Qed.

Lemma plain_phases (cb : string) (ca : call_args) (fo : function) (w : wrapper)
    (body : arguments -> prog Empty_set) (a : call_args)
    (s0 s1 s2 : state) (l : loc) (ba : arguments) (o : outcome) :
  ensure_callback cb ca fo = Ok w ->
  fn_code fo = PlainCode body ->
  _bindargs_and_get_callobj (fn_signature fo) cb a s0 = (Ok (l, ba), s1) ->
  exec (body ba) s1 = (o, s2) ->
  exists t01 t12 q1 s3,
    trace s1 = trace s0 ++ t01 /\
    token_events l t01 = [] /\ (forall f, calls_to f t01 = []) /\
    heap s1 !! l = Some q1 /\
    trace s2 = trace s1 ++ t12 /\
    coherent l q1 t12 /\
    heap s2 !! l = Some (after l q1 t12) /\
    trace s3 = trace s2 ++ [EInvoke l ca (after l q1 t12)] /\
    heap s3 !! l = Some PNone /\
    call_wrapper w a s0 = (finalized (after l q1 t12) ca s3 o, s3).
Proof.
  intros Hw Hc Hb He.
  apply ensure_callback_ok in Hw as [-> _].
  destruct (bindargs_spec _ _ _ _ _ _ _ Hb) as (_ & _ & t01 & q1 & T1 & H1 & N1 & C1).
  pose proof (evolves_exec (body ba) s1) as (t12 & T2 & _ & H2).
  rewrite He in T2, H2. simpl in T2, H2.
  destruct (H2 l q1 H1) as [Co A2].
  destruct (call_spec l ca s2 _ A2) as (fo' & s3 & Hf & T3 & H3 & Ho).
  exists t01, t12, q1, s3. repeat (split; [done|]).
  split.
  { rewrite H3. apply list_lookup_insert_eq. by eapply lookup_lt_Some. }
  unfold call_wrapper. simpl. rewrite Hc.
  unfold bind, plain_wrapper, bind. simpl. rewrite Hb.
  unfold try_finally. rewrite He, Hf. subst fo'. unfold finalized, ret.
  destruct (after l q1 t12); simpl; try (by destruct o).
  destruct (behaviour f ca s3); by destruct o.
Qed.

Lemma token_calls_invoke (l : loc) (a : call_args) (q : plain) :
  q <> PNone -> token_calls l [EInvoke l a q] = [(q, a)].
Proof.
  intros N. simpl. unfold consuming. simpl.
  rewrite bool_decide_eq_true_2 by done.
  by rewrite bool_decide_eq_false_2 by done.
Qed.

Lemma elem_of_no_events (l : loc) (t : list event) (e : event) :
  token_events l t = [] -> e ∈ t -> on_token l e = false.
Proof.
  induction t as [|e' t IH]; simpl; [by intros _ ?%elem_of_nil|].
  destruct (on_token l e') eqn:E; [discriminate|].
  intros N [->|I]%elem_of_cons; auto.
Qed.

Lemma elem_of_coherent_empty (l : loc) (t : list event) (e : event) :
  coherent l PNone t -> e ∈ t -> on_token l e = true -> found e = PNone.
Proof.
  induction t as [|e' t IH]; simpl; [by intros _ ?%elem_of_nil|].
  destruct (on_token l e') eqn:E.
  - intros [F C] [->|I]%elem_of_cons; auto.
  - intros C [->|I]%elem_of_cons; [congruence|auto].
Qed.

(** ** Calls of a wrapped plain function *)

(** C1 (guaranteed invocation).  A plain function is decorated and called;
    the binder made the token [l], which holds the callback [f].  If the
    body performs no operation on the token, whether it returns or raises
    [o], then the finalization step applies [f] to the decoration-time
    arguments: this is the only application made through the token during
    the whole call, and the only application of [f] besides those the body
    made by other routes.  The caller gets the outcome of the body unless
    [f] itself raises. *)
Theorem guaranteed_invocation
    (cb : string) (ca : call_args) (fo : function) (w : wrapper)
    (body : arguments -> prog Empty_set) (a : call_args)
    (s0 s1 s2 : state) (l : loc) (ba : arguments) (f : fn_id) (o : outcome) :
  ensure_callback cb ca fo = Ok w ->
  fn_code fo = PlainCode body ->
  _bindargs_and_get_callobj (fn_signature fo) cb a s0 = (Ok (l, ba), s1) ->
  heap s1 !! l = Some (PFun f) ->
  exec (body ba) s1 = (o, s2) ->
  token_events l (since s1 s2) = [] ->
  exists s3,
    call_wrapper w a s0 =
      (match behaviour f ca s3 with Ok _ => returns o | Err e => Err e end, s3) /\
    since s2 s3 = [EInvoke l ca (PFun f)] /\
    token_calls l (since s0 s3) = [(PFun f, ca)] /\
    calls_to f (since s0 s3) = calls_to f (since s1 s2) ++ [ca].
Proof.
  intros Hw Hc Hb Hl He Hq.
  destruct (plain_phases _ _ _ _ _ _ _ _ _ _ _ _ Hw Hc Hb He)
    as (t01 & t12 & q1 & s3 & T1 & N1 & C1 & H1 & T2 & Co & H2 & T3 & H3 & R).
  rewrite Hl in H1. injection H1 as <-.
  rewrite (since_app _ _ _ T2) in Hq |- *.
  assert (after l (PFun f) t12 = PFun f) as A by (unfold after; by rewrite Hq).
  rewrite A in *. exists s3. split; [exact R|].
  split; [by apply since_app|].
  assert (trace s3 = trace s0 ++ (t01 ++ t12 ++ [EInvoke l ca (PFun f)])) as T.
  { rewrite T3, T2, T1. by rewrite <- !app_assoc. }
  rewrite (since_app _ _ _ T). split.
  - rewrite !token_calls_app.
    apply no_events_no_calls in N1 as [-> _].
    apply no_events_no_calls in Hq as [-> _].
    by rewrite token_calls_invoke.
  - rewrite !calls_to_app, C1. simpl. by rewrite decide_True.
Qed.

(** If the first operation of the body on the token is an invoke with
    the arguments [A], then that invoke found the callback; it is the only
    application made through the token during the whole call; the
    finalization step finds the token empty and applies nothing; and the
    caller gets the outcome of the body unchanged. *)
Lemma first_invoke_wins
    (cb : string) (ca : call_args) (fo : function) (w : wrapper)
    (body : arguments -> prog Empty_set) (a : call_args)
    (s0 s1 s2 : state) (l : loc) (ba : arguments) (f : fn_id) (o : outcome)
    (A : call_args) (q : plain) (rest : list event) :
  ensure_callback cb ca fo = Ok w ->
  fn_code fo = PlainCode body ->
  _bindargs_and_get_callobj (fn_signature fo) cb a s0 = (Ok (l, ba), s1) ->
  heap s1 !! l = Some (PFun f) ->
  exec (body ba) s1 = (o, s2) ->
  token_events l (since s1 s2) = EInvoke l A q :: rest ->
  q = PFun f /\
  exists s3,
    call_wrapper w a s0 = (returns o, s3) /\
    since s2 s3 = [EInvoke l ca PNone] /\
    token_calls l (since s0 s3) = [(PFun f, A)] /\
    calls_to f (since s0 s3) = calls_to f (since s1 s2).
Proof.
  intros Hw Hc Hb Hl He Hq.
  destruct (plain_phases _ _ _ _ _ _ _ _ _ _ _ _ Hw Hc Hb He)
    as (t01 & t12 & q1 & s3 & T1 & N1 & C1 & H1 & T2 & Co & H2 & T3 & H3 & R).
  rewrite Hl in H1. injection H1 as <-.
  rewrite (since_app _ _ _ T2) in Hq |- *.
  assert (after l (PFun f) t12 = PNone) as A' by (unfold after; by rewrite Hq).
  rewrite A' in *.
  destruct (coherent_first _ _ _ Co) as [N|(u1 & e & u2 & -> & N & O & F & C')].
  { by rewrite N in Hq. }
  rewrite token_events_app, N in Hq. simpl in Hq. rewrite O in Hq.
  injection Hq as -> _. simpl in F. subst q. split; [done|].
  exists s3. split; [exact R|]. split; [by apply since_app|].
  assert (trace s3 = trace s0 ++
            (t01 ++ (u1 ++ EInvoke l A (PFun f) :: u2) ++ [EInvoke l ca PNone])) as T.
  { rewrite T3, T2, T1. by rewrite <- !app_assoc. }
  rewrite (since_app _ _ _ T). split.
  - rewrite !token_calls_app.
    apply no_events_no_calls in N1 as [-> _].
    apply no_events_no_calls in N as [-> _].
    apply coherent_empty in C' as [C' _].
    change (EInvoke l A (PFun f) :: u2) with ([EInvoke l A (PFun f)] ++ u2).
    rewrite token_calls_app, C', token_calls_invoke by done.
    simpl. unfold consuming. simpl. by rewrite andb_false_r.
  - rewrite !calls_to_app, C1. simpl. by rewrite app_nil_r.
Qed.

(** Operations on other values leave the token [l] alone. *)
Lemma call_value_other (l : loc) (target : value) (a : call_args) (s : state) :
  target <> VToken l ->
  exists u,
    trace (snd (call_value target a s)) = trace s ++ u /\
    token_events l u = [] /\
    heap (snd (call_value target a s)) !! l = heap s !! l.
Proof.
  intros N. destruct target as [p|l']; simpl.
  - exists [ECall p a]. done.
  - assert (l' <> l) as N' by congruence.
    destruct (heap s !! l') as [q|] eqn:H.
    + destruct (call_spec l' a s q H) as (o & s' & -> & T & Hp & _). simpl.
      exists [EInvoke l' a q]. split; [done|]. split.
      * simpl. by rewrite bool_decide_eq_false_2.
      * rewrite Hp. by apply list_lookup_insert_ne.
    + rewrite call_unallocated by done. exists []. by rewrite app_nil_r.
Qed.

Lemma release_callback_other (l : loc) (target : value) (s : state) :
  target <> VToken l ->
  exists u,
    trace (snd (release_callback target s)) = trace s ++ u /\
    token_events l u = [] /\
    heap (snd (release_callback target s)) !! l = heap s !! l.
Proof.
  intros N. destruct target as [p|l']; simpl.
  - exists []. by rewrite app_nil_r.
  - assert (l' <> l) as N' by congruence.
    destruct (heap s !! l') as [q|] eqn:H.
    + destruct (release_spec l' s q H) as (o & s' & -> & T & Hp & _). simpl.
      exists [ERelease l' q]. split; [done|]. split.
      * simpl. by rewrite bool_decide_eq_false_2.
      * rewrite Hp. by apply list_lookup_insert_ne.
    + rewrite release_unallocated by done. exists []. by rewrite app_nil_r.
Qed.

(** Up to its first operation on the token, a body runs as it runs, and
    does not touch the token. *)
Lemma until_token_spec {Y} (l : loc) (p p' : prog Y) (s s_pre : state) :
  until_token l p s = Some (p', s_pre) ->
  run p s = run p' s_pre /\
  exists u,
    trace s_pre = trace s ++ u /\
    token_events l u = [] /\
    heap s_pre !! l = heap s !! l.
Proof.
  revert s. induction p as [v|e|target a k IH|target k IH|y k IH];
    intros s; simpl; try discriminate.
  - case_decide as D.
    + intros [= <- <-]. split; [done|]. exists []. by rewrite app_nil_r.
    + destruct (call_value_other l target a s D) as (u & T & N & H).
      destruct (call_value target a s) as [o s']. simpl in T, N, H. intros U.
      destruct (IH o s' U) as [R (u' & T' & N' & H')]. split; [done|].
      exists (u ++ u'). rewrite T', T, app_assoc, token_events_app, N, N'.
      repeat split; congruence.
  - case_decide as D.
    + intros [= <- <-]. split; [done|]. exists []. by rewrite app_nil_r.
    + destruct (release_callback_other l target s D) as (u & T & N & H).
      destruct (release_callback target s) as [r s']. simpl in T, N, H. intros U.
      destruct (IH (as_outcome r) s' U) as [R (u' & T' & N' & H')]. split; [done|].
      exists (u ++ u'). rewrite T', T, app_assoc, token_events_app, N, N'.
      repeat split; congruence.
Qed.

(** C3 (ownership precedence), in the form that holds.  A plain function
    is decorated and called; the binder made the token [l], which holds
    the callback [f].  The first operation the body performs on the token
    is the invoke [Call (VToken l) A k], reached in the store [s_pre].
    Then that invoke applies [f] to exactly [A], in the store [s_inv] in
    which the token is already empty, and the body goes on with what [f]
    returned or raised there.  It is the only application made through
    the token during the whole call, and [f] is applied nowhere else but
    where the body applies it by other routes.  The finalization step
    finds the token empty and applies nothing, and the caller gets the
    outcome of the body unchanged. *)
Theorem ownership_precedence
    (cb : string) (ca : call_args) (fo : function) (w : wrapper)
    (body : arguments -> prog Empty_set) (a : call_args)
    (s0 s1 : state) (l : loc) (ba : arguments) (f : fn_id)
    (A : call_args) (k : outcome -> prog Empty_set) (s_pre : state) :
  ensure_callback cb ca fo = Ok w ->
  fn_code fo = PlainCode body ->
  _bindargs_and_get_callobj (fn_signature fo) cb a s0 = (Ok (l, ba), s1) ->
  heap s1 !! l = Some (PFun f) ->
  until_token l (body ba) s1 = Some (Call (VToken l) A k, s_pre) ->
  exists s_inv o s2 s3,
    s_inv = log (EInvoke l A (PFun f)) (set_callobj l PNone s_pre) /\
    CallbackWrapper_call l A s_pre = (behaviour f A s_inv, s_inv) /\
    exec (body ba) s1 = (o, s2) /\
    exec (k (behaviour f A s_inv)) s_inv = (o, s2) /\
    call_wrapper w a s0 = (returns o, s3) /\
    since s2 s3 = [EInvoke l ca PNone] /\
    token_calls l (since s0 s3) = [(PFun f, A)] /\
    calls_to f (since s0 s3)
    = calls_to f (since s1 s_pre) ++ A :: calls_to f (since s_inv s2).
Proof.
  intros Hw Hc Hb Hl Hu.
  destruct (until_token_spec _ _ _ _ _ Hu) as [R (u & Tu & Nu & Hp)].
  rewrite Hl in Hp.
  set (s_inv := log (EInvoke l A (PFun f)) (set_callobj l PNone s_pre)).
  assert (CallbackWrapper_call l A s_pre = (behaviour f A s_inv, s_inv)) as C
    by (unfold CallbackWrapper_call; by rewrite Hp).
  assert (run (body ba) s1 = run (k (behaviour f A s_inv)) s_inv) as R'
    by (rewrite R; simpl; by rewrite C).
  assert (exec (body ba) s1 = exec (k (behaviour f A s_inv)) s_inv) as E
    by (unfold exec; by rewrite R').
  destruct (exec (body ba) s1) as [o s2] eqn:He.
  pose proof (evolves_exec (k (behaviour f A s_inv)) s_inv) as (t' & T' & _ & _).
  rewrite <- E in T'. change (trace s2 = trace s_inv ++ t') in T'.
  assert (trace s2 = trace s1 ++ (u ++ [EInvoke l A (PFun f)] ++ t')) as T2.
  { rewrite T'. unfold s_inv. simpl. rewrite Tu. by rewrite <- !app_assoc. }
  assert (token_events l (since s1 s2) = EInvoke l A (PFun f) :: token_events l t') as Hq.
  { rewrite (since_app _ _ _ T2), !token_events_app, Nu. simpl.
    by rewrite bool_decide_eq_true_2. }
  destruct (first_invoke_wins _ _ _ _ _ _ _ _ _ _ _ _ _ _ _ _ Hw Hc Hb Hl He Hq)
    as (_ & s3 & Rw & S & Tc & Cf).
  exists s_inv, o, s2, s3. repeat (split; [done|]).
  rewrite Cf, (since_app _ _ _ T2), (since_app _ _ _ Tu), (since_app _ _ _ T').
  rewrite !calls_to_app. simpl. by rewrite decide_True.
Qed.

(** C4 (release suppresses finalization).  Same setting; the body
    released the token, that is some release on it handed the held value
    out.  Then the value handed out is the callback, nothing was ever
    applied through the token, the finalization step finds it empty and
    applies nothing, and the caller gets the outcome of the body, a
    returned value or a raised exception, unchanged. *)
Theorem release_suppresses_finalization
    (cb : string) (ca : call_args) (fo : function) (w : wrapper)
    (body : arguments -> prog Empty_set) (a : call_args)
    (s0 s1 s2 : state) (l : loc) (ba : arguments) (f : fn_id) (o : outcome)
    (q : plain) :
  ensure_callback cb ca fo = Ok w ->
  fn_code fo = PlainCode body ->
  _bindargs_and_get_callobj (fn_signature fo) cb a s0 = (Ok (l, ba), s1) ->
  heap s1 !! l = Some (PFun f) ->
  exec (body ba) s1 = (o, s2) ->
  ERelease l q ∈ since s1 s2 -> q <> PNone ->
  q = PFun f /\
  exists s3,
    call_wrapper w a s0 = (returns o, s3) /\
    since s2 s3 = [EInvoke l ca PNone] /\
    token_calls l (since s0 s3) = [] /\
    calls_to f (since s0 s3) = calls_to f (since s1 s2).
Proof.
  intros Hw Hc Hb Hl He Hq Nq.
  destruct (plain_phases _ _ _ _ _ _ _ _ _ _ _ _ Hw Hc Hb He)
    as (t01 & t12 & q1 & s3 & T1 & N1 & C1 & H1 & T2 & Co & H2 & T3 & H3 & R).
  rewrite Hl in H1. injection H1 as <-.
  rewrite (since_app _ _ _ T2) in Hq |- *.
  assert (on_token l (ERelease l q) = true) as On
    by (simpl; by apply bool_decide_eq_true).
  destruct (coherent_first _ _ _ Co) as [N|(u1 & e & u2 & -> & N & O & F & C')].
  { pose proof (elem_of_no_events _ _ _ N Hq). congruence. }
  assert (e = ERelease l q) as ->.
  { apply elem_of_app in Hq as [I|[<-|I]%elem_of_cons]; [| done |].
    - pose proof (elem_of_no_events _ _ _ N I). congruence.
    - pose proof (elem_of_coherent_empty _ _ _ C' I On). done. }
  simpl in F. subst q. split; [done|].
  assert (after l (PFun f) (u1 ++ ERelease l (PFun f) :: u2) = PNone) as A'.
  { unfold after. rewrite token_events_app, N. simpl. simpl in O. by rewrite O. }
  rewrite A' in *.
  exists s3. split; [exact R|]. split; [by apply since_app|].
  assert (trace s3 = trace s0 ++
            (t01 ++ (u1 ++ ERelease l (PFun f) :: u2) ++ [EInvoke l ca PNone])) as T.
  { rewrite T3, T2, T1. by rewrite <- !app_assoc. }
  rewrite (since_app _ _ _ T). split.
  - rewrite !token_calls_app.
    apply no_events_no_calls in N1 as [-> _].
    apply no_events_no_calls in N as [-> _].
    apply coherent_empty in C' as [C' _].
    simpl. rewrite C'. unfold consuming. simpl. by rewrite andb_false_r.
  - rewrite !calls_to_app, C1. simpl. by rewrite app_nil_r.
Qed.

(** C6 (error propagation), in the form that holds.  Same setting, for any content of
    the token; the body raises [e].  The finalization step then runs: it
    invokes the token once, with the decoration-time arguments.  If it
    finds the token empty, or the value it applies does not raise, the
    caller gets [e] itself; if that value raises [e'], the caller gets
    [e'] in place of [e]. *)
Theorem body_error_propagates
    (cb : string) (ca : call_args) (fo : function) (w : wrapper)
    (body : arguments -> prog Empty_set) (a : call_args)
    (s0 s1 s2 : state) (l : loc) (ba : arguments) (e : exn) :
  ensure_callback cb ca fo = Ok w ->
  fn_code fo = PlainCode body ->
  _bindargs_and_get_callobj (fn_signature fo) cb a s0 = (Ok (l, ba), s1) ->
  exec (body ba) s1 = (Err e, s2) ->
  exists q s3,
    heap s2 !! l = Some q /\
    since s2 s3 = [EInvoke l ca q] /\
    call_wrapper w a s0 =
      (match q with
       | PNone => Err e
       | _ => match apply_callable q ca s3 with
              | Ok _ => Err e
              | Err e' => Err e'
              end
       end, s3).
Proof.
  intros Hw Hc Hb He.
  destruct (plain_phases _ _ _ _ _ _ _ _ _ _ _ _ Hw Hc Hb He)
    as (t01 & t12 & q1 & s3 & T1 & N1 & C1 & H1 & T2 & Co & H2 & T3 & H3 & R).
  exists (after l q1 t12), s3. split; [done|].
  split; [by apply since_app|]. exact R.
Qed.

(** ** The ownership token *)

(** C2 (at most once).  Whatever sequence of invokes and releases is
    performed on a token, from whatever store, at most one of them
    consumes (applies the held value or hands it out); and once a
    consuming operation has taken place, the next operation finds the
    token empty: an invoke returns [None] and a release raises, and
    neither does anything but leave its mark in the trace. *)
Theorem token_at_most_once (l : loc) (ops : list token_op) (s : state) :
  length (consumptions l (since s (snd (run_ops l ops s)))) <= 1 /\
  forall ops1 op ops2,
    ops = ops1 ++ op :: ops2 ->
    consumptions l (since s (snd (run_ops l ops1 s))) <> [] ->
    fst (run_ops l ops s) !! length ops1 = Some (idle op) /\
    do_op l op (snd (run_ops l ops1 s)) =
      (idle op, log (idle_event l op) (snd (run_ops l ops1 s))).
Proof.
  split.
  - destruct (heap s !! l) as [q|] eqn:H.
    + destruct (evolves_run_ops l ops s) as (t & T & _ & C).
      rewrite (since_app _ _ _ T). destruct (C l q H) as [Co _].
      by eapply coherent_at_most_once.
    + rewrite run_ops_unallocated, since_refl by done. simpl. lia.
  - intros ops1 op ops2 -> N.
    assert (heap (snd (run_ops l ops1 s)) !! l = Some PNone) as E.
    { destruct (heap s !! l) as [q|] eqn:H.
      - destruct (evolves_run_ops l ops1 s) as (t & T & _ & C).
        rewrite (since_app _ _ _ T) in N. destruct (C l q H) as [_ A].
        by rewrite (consumed_after _ _ _ N) in A.
      - rewrite run_ops_unallocated, since_refl in N by done. done. }
    pose proof (do_op_idle l op _ E) as D. split; [|exact D].
    rewrite run_ops_app. simpl fst. rewrite lookup_app_r by (by rewrite length_run_ops).
    rewrite length_run_ops, Nat.sub_diag. simpl. rewrite D.
    by destruct (run_ops l ops2 _).
Qed.

(** C9 (invoke clears first).  An invoke on a token holding [p] applies
    [p] in a store in which the token is already empty, so whether [p]
    returns or raises the token is empty afterwards; that invoke is the
    one consuming operation, and every later invoke returns [None]
    without applying anything while every later release raises. *)
Theorem invoke_clears_before_calling
    (l : loc) (a : call_args) (s : state) (p : plain) :
  heap s !! l = Some p -> p <> PNone ->
  exists s',
    CallbackWrapper_call l a s = (apply_callable p a s', s') /\
    heap s' !! l = Some PNone /\
    consumptions l (since s s') = [EInvoke l a p] /\
    (forall a', CallbackWrapper_call l a' s' = (Ok VNone, log (EInvoke l a' PNone) s')) /\
    CallbackWrapper_release l s' = (Err already_released, log (ERelease l PNone) s') /\
    forall ops,
      fst (run_ops l ops s') = idle <$> ops /\
      heap (snd (run_ops l ops s')) !! l = Some PNone /\
      consumptions l (since s' (snd (run_ops l ops s'))) = [].
Proof.
  intros H N.
  destruct (call_spec l a s p H) as (o & s' & C & T & Hp & O).
  assert (heap s' !! l = Some PNone) as E.
  { rewrite Hp. apply list_lookup_insert_eq. by eapply lookup_lt_Some. }
  exists s'. split; [|split; [exact E|split; [|split; [|split]]]].
  - rewrite C, O. by destruct p.
  - rewrite (since_app _ _ _ T). simpl. unfold consuming. simpl.
    rewrite bool_decide_eq_true_2 by done.
    by rewrite bool_decide_eq_false_2 by done.
  - intros a'. apply (do_op_idle l (Invoke a') s' E).
  - unfold CallbackWrapper_release. by rewrite E.
  - intros ops. by apply run_ops_idle.
Qed.

(** C10 (one error for both misuses).  On an empty token, constructing a
    new token from it and releasing it fail in the same way: both go
    through [CallbackWrapper.release], raise the same [RuntimeError] with
    the same message, and leave the same store. *)
Theorem reuse_error_is_release_error (l : loc) (s : state) :
  heap s !! l = Some PNone ->
  CallbackWrapper_init (VToken l) s = (Err already_released, log (ERelease l PNone) s) /\
  CallbackWrapper_release l s = (Err already_released, log (ERelease l PNone) s) /\
  release_callback (VToken l) s = CallbackWrapper_release l s /\
  exn_type already_released = "RuntimeError" /\
  exn_msg already_released = "Cannot release a call object which is already released!".
Proof.
  intros H. split; [by apply init_token_empty|].
  split; [|done]. unfold CallbackWrapper_release. by rewrite H.
Qed.

(** C8 (re-wrapping moves ownership).  Constructing a token from the
    token [l]: when [l] holds [q], the construction is a release of [l]
    followed by the allocation of a new token holding [q]; the new token
    did not exist while [l] held [q]; afterwards [l] is empty and stays
    empty under every later operation and every later run of a body.
    When [l] is empty, the construction raises and no token is made. *)
Theorem rewrap_moves_ownership (l : loc) (s : state) (q : plain) :
  heap s !! l = Some q ->
  (q <> PNone ->
   exists l' sr s',
     CallbackWrapper_release l s = (Ok q, sr) /\
     CallbackWrapper_init (VToken l) s = (Ok l', s') /\
     (l', s') = alloc q sr /\
     heap s !! l' = None /\
     heap sr !! l = Some PNone /\ heap sr !! l' = None /\
     heap s' !! l = Some PNone /\ heap s' !! l' = Some q /\
     (forall ops, fst (run_ops l ops s') = idle <$> ops /\
                  heap (snd (run_ops l ops s')) !! l = Some PNone) /\
     (forall Y (p : prog Y), heap (snd (run p s')) !! l = Some PNone)) /\
  (q = PNone ->
   exists s',
     CallbackWrapper_init (VToken l) s = (Err already_released, s') /\
     heap s' = heap s).
Proof.
  intros H. split.
  - intros N.
    assert (l < length (heap s)) as Lt by (by eapply lookup_lt_Some).
    set (sr := log (ERelease l q) (set_callobj l PNone s)).
    exists (length (heap s)), sr, (snd (alloc q sr)).
    assert (heap sr !! l = Some PNone) as Er
      by (simpl; by apply list_lookup_insert_eq).
    assert (heap (snd (alloc q sr)) !! l = Some PNone) as E'.
    { simpl. rewrite lookup_app_l by (rewrite length_insert; lia).
      by apply list_lookup_insert_eq. }
    split; [|split; [|split; [|split; [|split; [|split; [|split; [|split; [|split]]]]]]]].
    + unfold CallbackWrapper_release. rewrite H. by destruct q.
    + by rewrite (init_token _ _ _ H N).
    + unfold alloc, sr. simpl. by rewrite length_insert.
    + by apply lookup_ge_None_2.
    + exact Er.
    + simpl. apply lookup_ge_None_2. by rewrite length_insert.
    + exact E'.
    + simpl. rewrite lookup_app_r by (by rewrite length_insert).
      by rewrite length_insert, Nat.sub_diag.
    + intros ops. destruct (run_ops_idle l ops _ E') as (? & ? & _). done.
    + intros Y p. eapply evolves_empty; [apply evolves_run | exact E'].
  - intros ->. eexists. split; [by apply init_token_empty|done].
Qed.

(** ** The decorator *)

(** C7 (validation at decoration time).  Applying the decorator, which
    runs no body and touches no store, fails with a [ValueError] naming
    the function and the missing parameter exactly when [callback_name]
    is not among the declared parameters; otherwise it gives the wrapper
    of the function. *)
Theorem decoration_validates_parameter
    (cb : string) (ca : call_args) (fo : function) :
  (cb ∉ parameters (fn_signature fo) ->
   ensure_callback cb ca fo =
     Err (ValueError ("Wrapped function '" +:+ fn_name fo
                      +:+ "' has no parameter '" +:+ cb +:+ "'!"))) /\
  (cb ∈ parameters (fn_signature fo) ->
   ensure_callback cb ca fo = Ok (Wrapper fo cb ca)) /\
  (forall w, ensure_callback cb ca fo = Ok w -> cb ∈ parameters (fn_signature fo)).
Proof.
  unfold ensure_callback, decorator. split; [|split].
  - intros N. by rewrite decide_False.
  - intros I. by rewrite decide_True.
  - intros w. by case_decide.
Qed.

(** ** Generators *)

Lemma evolves_gen_next (g : generator) (s : state) :
  evolves s (snd (gen_next g s)).
Proof.
  destruct g as [p|k|]; simpl; try apply evolves_refl; unfold gen_resume.
  - pose proof (evolves_run p s) as E.
    by destruct (run p s) as [[[?|?]|? ?] ?].
  - pose proof (evolves_run (k Next) s) as E.
    by destruct (run (k Next) s) as [[[?|?]|? ?] ?].
Qed.

Lemma evolves_gen_close (g : generator) (s : state) :
  evolves s (snd (gen_close g s)).
Proof.
  destruct g as [p|k|]; simpl; try apply evolves_refl.
  pose proof (evolves_run (k Close) s) as E.
  destruct (run (k Close) s) as [[[?|?]|? ?] ?]; try done.
  by case_decide.
Qed.

Lemma evolves_allocated (l : loc) (s s' : state) :
  evolves s s' -> is_Some (heap s !! l) -> is_Some (heap s' !! l).
Proof.
  intros (t & _ & _ & H) [q Hq]. destruct (H l q Hq) as [_ A]. eauto.
Qed.

Lemma gen_finally_spec (w : wrapper) (l : loc) (pending : option exn)
    (s1 : state) (q : plain) :
  heap s1 !! l = Some q ->
  exists r s2,
    gen_finally w l pending s1 = (r, s2) /\
    trace s2 = trace s1 ++ [EInvoke l (w_callback_args w) q] /\
    (r = pending \/ exists e, r = Some e).
Proof.
  intros H. unfold gen_finally.
  destruct (call_spec l (w_callback_args w) s1 q H) as (o & s2 & -> & T & _ & _).
  destruct o; eexists _, _; (split; [reflexivity|]); split; eauto.
Qed.

Lemma delegate_next_yield (w : wrapper) (l : loc) (inner inner' : generator)
    (v : value) (s s1 : state) :
  gen_next inner s = ((inner', Yields v), s1) ->
  delegate_next w l inner s = ((Delegating l inner', Yields v), s1).
Proof. intros H. unfold delegate_next. by rewrite H. Qed.

Lemma delegate_next_end (w : wrapper) (l : loc) (inner inner' : generator)
    (r : next_result) (s s1 : state) (q : plain) :
  gen_next inner s = ((inner', r), s1) ->
  yielded r = None ->
  heap s1 !! l = Some q ->
  exists r' s2,
    delegate_next w l inner s = ((Unwound, r'), s2) /\
    yielded r' = None /\
    trace s2 = trace s1 ++ [EInvoke l (w_callback_args w) q].
Proof.
  intros H Y Hq. unfold delegate_next. rewrite H.
  destruct r as [v| |e]; [done| |].
  - destruct (gen_finally_spec w l None s1 q Hq) as (r & s2 & -> & T & _).
    destruct r; eexists _, _; (split; [reflexivity|]); done.
  - destruct (gen_finally_spec w l (Some e) s1 q Hq) as (r & s2 & -> & T & _).
    destruct r; eexists _, _; (split; [reflexivity|]); done.
Qed.

Lemma iterate_unwound (w : wrapper) (body : arguments -> prog value)
    (n : nat) (s : state) :
  iterate w body n Unwound s = ((Unwound, replicate n (Stops VNone)), s).
Proof.
  induction n as [|n IH]; simpl; [done|]. by rewrite IH.
Qed.

Lemma omap_yielded_stops (n : nat) :
  omap yielded (replicate n (Stops VNone)) = [].
Proof. induction n; simpl; done. Qed.

(** Iterating the wrapper's generator from inside [yield from]: either
    every [next] so far yielded, and the wrapper did exactly what the
    inner generator does; or the inner generator ended at some [next],
    and the wrapper then invoked the token, once. *)
Lemma iterate_delegating (w : wrapper) (body : arguments -> prog value)
    (n : nat) (l : loc) (inner : generator) (s : state)
    (fr : frame) (rs : list next_result) (s' : state) :
  is_Some (heap s !! l) ->
  iterate w body n (Delegating l inner) s = ((fr, rs), s') ->
  (exists inner' vs,
     fr = Delegating l inner' /\ rs = Yields <$> vs /\
     gen_iterate n inner s = ((inner', rs), s')) \/
  (fr = Unwound /\
   exists m inner_m vs sm g r sf q,
     m < n /\
     gen_iterate m inner s = ((inner_m, Yields <$> vs), sm) /\
     gen_next inner_m sm = ((g, r), sf) /\ yielded r = None /\
     heap sf !! l = Some q /\
     trace s' = trace sf ++ [EInvoke l (w_callback_args w) q] /\
     omap yielded rs = vs).
Proof.
  revert inner s fr rs s'.
  induction n as [|n IH]; intros inner s fr rs s' Al It; simpl in It.
  - injection It as <- <- <-. left. by exists inner, [].
  - destruct (gen_next inner s) as [[inner1 r] s1] eqn:G.
    pose proof (evolves_gen_next inner s) as E. rewrite G in E. simpl in E.
    pose proof (evolves_allocated l _ _ E Al) as Al1.
    destruct (yielded r) as [v|] eqn:Y.
    + destruct r as [v'| |]; try done. injection Y as ->.
      rewrite (delegate_next_yield w l _ _ _ _ _ G) in It.
      destruct (iterate w body n (Delegating l inner1) s1) as [[fr2 rs2] s2] eqn:I2.
      injection It as <- <- <-.
      destruct (IH _ _ _ _ _ Al1 I2)
        as [(inner' & vs & -> & -> & GI)
           |(-> & m & inner_m & vs & sm & g & r & sf & q & Lt & GI & GN & Yr & Hq & T & O)].
      * left. exists inner', (v :: vs). simpl. by rewrite G, GI.
      * right. split; [done|].
        exists (S m), inner_m, (v :: vs), sm, g, r, sf, q.
        split; [lia|]. split; [simpl; by rewrite G, GI|].
        repeat split; try done. by rewrite <- O.
    + destruct Al1 as [q Hq].
      destruct (delegate_next_end w l _ _ _ _ _ q G Y Hq) as (r' & s2 & D & Y' & T).
      rewrite D, iterate_unwound in It. injection It as <- <- <-.
      right. split; [done|].
      exists 0, inner, [], s, inner1, r, s1, q.
      split; [lia|]. repeat split; try done.
      simpl. by rewrite Y', omap_yielded_stops.
Qed.

Lemma wrapper_close_spec (w : wrapper) (l : loc) (inner : generator) (s : state) :
  is_Some (heap s !! l) ->
  exists g r sc q rc sf,
    gen_close inner s = ((g, r), sc) /\
    heap sc !! l = Some q /\
    wrapper_close w (Delegating l inner) s = ((Unwound, rc), sf) /\
    trace sf = trace sc ++ [EInvoke l (w_callback_args w) q].
Proof.
  intros Al. simpl.
  pose proof (evolves_gen_close inner s) as E.
  destruct (gen_close inner s) as [[g r] sc]. simpl in E.
  destruct (evolves_allocated l _ _ E Al) as [q Hq].
  set (pending := match r with Some e => e | None => GeneratorExit end).
  destruct (gen_finally_spec w l (Some pending) sc q Hq) as (r' & sf & -> & T & _).
  exists g, r, sc, q. destruct r' as [e|].
  - case_decide; eexists _, _; done.
  - eexists _, _; done.
Qed.

Lemma evolves_gen_iterate (n : nat) (g : generator) (s : state) :
  evolves s (snd (gen_iterate n g s)).
Proof.
  revert g s. induction n as [|n IH]; intros g s; simpl; [apply evolves_refl|].
  pose proof (evolves_gen_next g s) as E.
  destruct (gen_next g s) as [[g1 r] s1]. specialize (IH g1 s1).
  destruct (gen_iterate n g1 s1) as [[g2 rs] s2]. simpl in *.
  by eapply evolves_trans.
Qed.

(** C5 (generator finalization timing).  A generator function is
    decorated.  Calling the wrapper only makes a generator object: the
    store is untouched, and closing that object before its first [next]
    touches nothing either.  Let the first [next] bind the arguments and
    make the token [l].  After any number of [next], one of two holds.
    Either every [next] yielded: the values and the store are exactly
    those of iterating the generator of the decorated function itself, so
    the wrapper has invoked nothing and, unless the body operated on the
    token, the token still holds what it held; closing the generator at
    this point closes the inner generator and then invokes the token,
    once, with the decoration-time arguments.  Or the inner generator
    ended (returned or raised) at some [next], having yielded before:
    the wrapper then invoked the token once, right after the last event
    of the body, and the values yielded are those of the inner
    generator. *)
Theorem generator_finalization_timing
    (cb : string) (ca : call_args) (fo : function) (w : wrapper)
    (body : arguments -> prog value) (a : call_args)
    (s0 s1 : state) (l : loc) (ba : arguments) :
  ensure_callback cb ca fo = Ok w ->
  fn_code fo = GeneratorCode body ->
  _bindargs_and_get_callobj (fn_signature fo) cb a s0 = (Ok (l, ba), s1) ->
  (forall s, call_wrapper w a s = (Ok (NewGenerator (Created a)), s)) /\
  (forall s, wrapper_close w (Created a) s = ((Unwound, None), s)) /\
  forall n fr rs s',
    iterate w body (S n) (Created a) s0 = ((fr, rs), s') ->
    (exists inner vs,
       fr = Delegating l inner /\ rs = Yields <$> vs /\
       gen_iterate (S n) (Unstarted (body ba)) s1 = ((inner, rs), s') /\
       (token_events l (since s1 s') = [] ->
        heap s' !! l = heap s1 !! l /\ token_calls l (since s0 s') = []) /\
       exists g r sc q rc sf,
         gen_close inner s' = ((g, r), sc) /\
         heap sc !! l = Some q /\
         wrapper_close w fr s' = ((Unwound, rc), sf) /\
         trace sf = trace sc ++ [EInvoke l ca q]) \/
    (fr = Unwound /\
     exists m inner_m vs sm g r sf q,
       m <= n /\
       gen_iterate m (Unstarted (body ba)) s1 = ((inner_m, Yields <$> vs), sm) /\
       gen_next inner_m sm = ((g, r), sf) /\ yielded r = None /\
       heap sf !! l = Some q /\
       trace s' = trace sf ++ [EInvoke l ca q] /\
       omap yielded rs = vs).
Proof.
  intros Hw Hc Hb.
  apply ensure_callback_ok in Hw as [-> _].
  split; [|split].
  - intros s. unfold call_wrapper. simpl. by rewrite Hc.
  - done.
  - intros n fr rs s' It.
    destruct (bindargs_spec _ _ _ _ _ _ _ Hb) as (_ & _ & t01 & q1 & T1 & H1 & N1 & C1).
    assert (iterate (Wrapper fo cb ca) body (S n) (Delegating l (Unstarted (body ba))) s1
            = ((fr, rs), s')) as It'.
    { rewrite <- It. simpl. by rewrite Hb. }
    assert (is_Some (heap s1 !! l)) as Al by eauto.
    destruct (iterate_delegating _ _ _ _ _ _ _ _ _ Al It')
      as [(inner & vs & -> & -> & GI)
         |(-> & m & inner_m & vs & sm & g & r & sf & q & Lt & GI & GN & Yr & Hq & T & O)].
    + left. exists inner, vs. repeat (split; [done|]).
      pose proof (evolves_gen_iterate (S n) (Unstarted (body ba)) s1) as E.
      rewrite GI in E. simpl in E.
      split.
      * destruct E as (t & T & _ & H). rewrite (since_app _ _ _ T).
        intros N. destruct (H l q1 H1) as [_ A].
        unfold after in A. rewrite N in A. split; [congruence|].
        assert (trace s' = trace s0 ++ (t01 ++ t)) as T'
          by (rewrite T, T1; by rewrite <- app_assoc).
        rewrite (since_app _ _ _ T'), token_calls_app.
        apply no_events_no_calls in N1 as [-> _].
        by apply no_events_no_calls in N as [-> _].
      * apply wrapper_close_spec. by eapply evolves_allocated.
    + right. split; [done|].
      exists m, inner_m, vs, sm, g, r, sf, q. repeat split; try done. lia.
Qed.

(** * Further properties *)

(** ** The binder *)

Lemma init_cases (v : value) (s : state) :
  (exists p, v = VPlain p /\
     CallbackWrapper_init v s =
       (Ok (length (heap s)), State (heap s ++ [p]) (trace s))) \/
  (exists l0 q, v = VToken l0 /\ heap s !! l0 = Some q /\ q <> PNone /\
     CallbackWrapper_init v s =
       (Ok (length (heap s)),
        State (<[l0 := PNone]> (heap s) ++ [q]) (trace s ++ [ERelease l0 q]))) \/
  (exists l0, v = VToken l0 /\ heap s !! l0 = Some PNone /\
     CallbackWrapper_init v s = (Err already_released, log (ERelease l0 PNone) s)) \/
  (exists l0, v = VToken l0 /\ heap s !! l0 = None /\
     CallbackWrapper_init v s = (Err no_callobj, s)).
Proof.
  destruct v as [p|l0].
  - left. exists p. by rewrite init_plain.
  - right. destruct (heap s !! l0) as [q|] eqn:H.
    + destruct (decide (q = PNone)) as [->|N].
      * right. left. exists l0. by rewrite init_token_empty.
      * left. exists l0, q. by rewrite (init_token _ _ _ H N).
    + right. right. exists l0. by rewrite init_token_unallocated.
Qed.

Lemma binder_unfold (sig : signature) (cb : string) (a : call_args) (s : state) :
  _bindargs_and_get_callobj sig cb a s =
  match sig_bind sig a with
  | Err e => (Err e, s)
  | Ok bound =>
      match apply_defaults sig bound !! cb with
      | None => (Err (KeyError cb), s)
      | Some v =>
          match CallbackWrapper_init v s with
          | (Ok l, s1) => (Ok (l, <[cb := VToken l]> (apply_defaults sig bound)), s1)
          | (Err e, s1) => (Err e, s1)
          end
      end
  end.
Proof.
  unfold _bindargs_and_get_callobj, bind, lift, getitem.
  destruct (sig_bind sig a) as [bound|e]; [|done].
  destruct (apply_defaults sig bound !! cb) as [v|]; [|done].
  unfold ret at 1. by destruct (CallbackWrapper_init v s) as [[?|?] ?].
Qed.

(** X1.  When the binder succeeds, the token it made is new; the bound
    arguments are those of the reflection facility with the token in the
    callback slot and every other argument untouched; the token holds
    what was passed, taken out of the passed token if it was one, which
    is left empty; every other token keeps its content; and nothing was
    applied. *)
Theorem binder_substitutes_token
    (sig : signature) (cb : string) (a : call_args)
    (s0 s1 : state) (l : loc) (ba : arguments) :
  _bindargs_and_get_callobj sig cb a s0 = (Ok (l, ba), s1) ->
  exists bound v p,
    sig_bind sig a = Ok bound /\
    apply_defaults sig bound !! cb = Some v /\
    holds s0 v p /\
    heap s0 !! l = None /\ heap s1 !! l = Some p /\
    ba !! cb = Some (VToken l) /\
    (forall name, name <> cb -> ba !! name = apply_defaults sig bound !! name) /\
    (forall l0, v = VToken l0 -> p <> PNone /\ heap s1 !! l0 = Some PNone) /\
    (forall l', l' <> l -> v <> VToken l' -> heap s1 !! l' = heap s0 !! l') /\
    (forall f, calls_to f (since s0 s1) = []) /\
    (forall l', token_calls l' (since s0 s1) = []).
Proof.
  rewrite binder_unfold.
  destruct (sig_bind sig a) as [bound|e]; [|discriminate].
  destruct (apply_defaults sig bound !! cb) as [v|] eqn:Hv; [|discriminate].
  destruct (init_cases v s0)
    as [(p & -> & E)|[(l0 & q & -> & H0 & N & E)
       |[(l0 & -> & _ & E)|(l0 & -> & _ & E)]]];
    rewrite E; try discriminate; intros [= <- <- <-].
  - exists bound, (VPlain p), p. repeat (split; [done|]).
    split; [by apply lookup_ge_None_2|].
    split; [simpl; by rewrite lookup_app_r, Nat.sub_diag|].
    split; [by rewrite lookup_insert_eq|].
    split; [intros name Hn; by rewrite lookup_insert_ne|].
    split; [done|].
    assert (since s0 (State (heap s0 ++ [p]) (trace s0)) = []) as ->
      by (apply since_app; simpl; by rewrite app_nil_r).
    split; [|done].
    intros l' Hl _. simpl. destruct (decide (l' < length (heap s0))).
    + by rewrite lookup_app_l.
    + rewrite lookup_ge_None_2 by (rewrite length_app; simpl; lia).
      symmetry. apply lookup_ge_None_2. lia.
  - assert (l0 < length (heap s0)) as Lt by (by eapply lookup_lt_Some).
    exists bound, (VToken l0), q. repeat (split; [done|]).
    split; [by apply lookup_ge_None_2|].
    split.
    { simpl. rewrite lookup_app_r by (by rewrite length_insert).
      by rewrite length_insert, Nat.sub_diag. }
    split; [by rewrite lookup_insert_eq|].
    split; [intros name Hn; by rewrite lookup_insert_ne|].
    split.
    { intros ? [= <-]. split; [done|]. simpl.
      rewrite lookup_app_l by (by rewrite length_insert).
      by apply list_lookup_insert_eq. }
    assert (since s0 (State (<[l0:=PNone]> (heap s0) ++ [q])
                        (trace s0 ++ [ERelease l0 q])) = [ERelease l0 q]) as ->
      by (by apply since_app).
    split; [|done].
    intros l' Hl Hv'. simpl. destruct (decide (l' < length (heap s0))).
    + rewrite lookup_app_l by (by rewrite length_insert).
      apply list_lookup_insert_ne. congruence.
    + rewrite lookup_ge_None_2 by (rewrite length_app, length_insert; simpl; lia).
      symmetry. apply lookup_ge_None_2. lia.
Qed.

(** What a failure of the binder leaves behind: no token made, none
    emptied, nothing applied. *)
Lemma binder_failure (sig : signature) (cb : string) (a : call_args)
    (s0 s1 : state) (e : exn) :
  _bindargs_and_get_callobj sig cb a s0 = (Err e, s1) ->
  heap s1 = heap s0 /\
  (s1 = s0 \/
   exists l0, heap s0 !! l0 = Some PNone /\ e = already_released /\
              s1 = log (ERelease l0 PNone) s0).
Proof.
  rewrite binder_unfold.
  destruct (sig_bind sig a) as [bound|e0]; [|intros [= <- <-]; auto].
  destruct (apply_defaults sig bound !! cb) as [v|] eqn:Hv; [|intros [= <- <-]; auto].
  destruct (init_cases v s0)
    as [(p & -> & E)|[(l0 & q & -> & H0 & N & E)
       |[(l0 & -> & H0 & E)|(l0 & -> & _ & E)]]];
    rewrite E; try discriminate; intros [= <- <-]; split; eauto.
Qed.

(** X2.  The binder runs before the [try] statement of the wrapper.  So
    when binding fails (the arguments do not fit the signature, or the
    callback passed is a token that is already empty) the call of a
    wrapped plain function raises that very error, and neither the body
    nor the finalization step runs: no token is made, the content of
    every token is what it was, and the trace gains at most the mark of
    the failed release.  The callback is then never invoked. *)
Theorem binding_failure_skips_finalization
    (cb : string) (ca : call_args) (fo : function) (w : wrapper)
    (body : arguments -> prog Empty_set) (a : call_args)
    (s0 s1 : state) (e : exn) :
  ensure_callback cb ca fo = Ok w ->
  fn_code fo = PlainCode body ->
  _bindargs_and_get_callobj (fn_signature fo) cb a s0 = (Err e, s1) ->
  call_wrapper w a s0 = (Err e, s1) /\
  heap s1 = heap s0 /\
  (since s0 s1 = [] \/
   exists l0, heap s0 !! l0 = Some PNone /\ e = already_released /\
              since s0 s1 = [ERelease l0 PNone]) /\
  (forall f, calls_to f (since s0 s1) = []) /\
  (forall l, consumptions l (since s0 s1) = []).
Proof.
  intros Hw Hc Hb. apply ensure_callback_ok in Hw as [-> _].
  split.
  { unfold call_wrapper. simpl. rewrite Hc.
    unfold bind, plain_wrapper, bind. simpl. by rewrite Hb. }
  destruct (binder_failure _ _ _ _ _ _ Hb) as [Hh [->|(l0 & H0 & -> & ->)]].
  - rewrite since_refl. repeat split; auto.
  - assert (since s0 (log (ERelease l0 PNone) s0) = [ERelease l0 PNone]) as ->
      by (by apply since_app).
    repeat split; eauto.
    intros l. simpl. unfold consuming. simpl. by rewrite andb_false_r.
Qed.

(** X3.  For a generator function the binder runs inside the generator
    frame.  So calling the wrapper on arguments that cannot be bound does
    not fail: it returns a generator object and leaves the store alone.
    The error of the binder is raised by the first [next]; the frame is
    then unwound without any finalization, no token is made, nothing is
    applied, and every later [next] just stops. *)
Theorem generator_binding_failure_is_deferred
    (cb : string) (ca : call_args) (fo : function) (w : wrapper)
    (body : arguments -> prog value) (a : call_args)
    (s0 s1 : state) (e : exn) (n : nat) :
  ensure_callback cb ca fo = Ok w ->
  fn_code fo = GeneratorCode body ->
  _bindargs_and_get_callobj (fn_signature fo) cb a s0 = (Err e, s1) ->
  call_wrapper w a s0 = (Ok (NewGenerator (Created a)), s0) /\
  iterate w body (S n) (Created a) s0 =
    ((Unwound, Raises (leave_frame e) :: replicate n (Stops VNone)), s1) /\
  heap s1 = heap s0 /\
  (forall f, calls_to f (since s0 s1) = []) /\
  (forall l, consumptions l (since s0 s1) = []).
Proof.
  intros Hw Hc Hb. apply ensure_callback_ok in Hw as [-> _].
  split; [unfold call_wrapper; simpl; by rewrite Hc|].
  split; [simpl; by rewrite Hb, iterate_unwound|].
  destruct (binder_failure _ _ _ _ _ _ Hb) as [Hh [->|(l0 & H0 & -> & ->)]].
  - rewrite since_refl. repeat split; auto.
  - assert (since s0 (log (ERelease l0 PNone) s0) = [ERelease l0 PNone]) as ->
      by (by apply since_app).
    repeat split; eauto.
    intros l. simpl. unfold consuming. simpl. by rewrite andb_false_r.
Qed.

(** ** Every wrapped call consumes its token exactly once *)

Lemma consuming_found (l : loc) (e : event) :
  on_token l e = true -> found e <> PNone -> consuming l e = true.
Proof.
  intros O F. unfold consuming. rewrite O. simpl.
  by rewrite bool_decide_eq_false_2.
Qed.

Lemma on_token_cases (l : loc) (e : event) :
  on_token l e = true ->
  (exists a, e = EInvoke l a (found e)) \/ e = ERelease l (found e).
Proof.
  destruct e as [l' a p|l' p|p a]; simpl; [| |done];
    intros ->%bool_decide_eq_true; eauto.
Qed.

Lemma first_consumes (l : loc) (q : plain) (u1 : list event) (e : event)
    (u2 : list event) :
  token_events l u1 = [] -> on_token l e = true -> found e = q -> q <> PNone ->
  coherent l PNone u2 ->
  consumptions l (u1 ++ e :: u2) = [e] /\
  token_calls l (u1 ++ e :: u2) = token_calls l [e] /\
  after l q (u1 ++ e :: u2) = PNone.
Proof.
  intros N O F Nq C. subst q.
  change (e :: u2) with ([e] ++ u2).
  rewrite !consumptions_app, !token_calls_app.
  destruct (no_events_no_calls _ _ N) as [-> ->].
  destruct (coherent_empty _ _ C) as [-> ->].
  rewrite !app_nil_r. simpl. rewrite (consuming_found _ _ O Nq).
  repeat split; try done.
  unfold after. rewrite token_events_app, N. simpl. by rewrite O.
Qed.

Lemma noop_invoke (l : loc) (a : call_args) :
  consumptions l [EInvoke l a PNone] = [] /\ token_calls l [EInvoke l a PNone] = [].
Proof. simpl. unfold consuming. simpl. by rewrite andb_false_r. Qed.

(** X4.  A plain function is decorated and called, and after binding the
    token holds a value [q] that is not [None].  Whatever the body does,
    during the whole call exactly one operation on the token consumes,
    and the token is empty when the call ends.  That operation either
    applied [q], and then [q] was applied through the token exactly once,
    or it was a release by the body, and then nothing was applied through
    the token. *)
Theorem wrapped_call_consumes_exactly_once
    (cb : string) (ca : call_args) (fo : function) (w : wrapper)
    (body : arguments -> prog Empty_set) (a : call_args)
    (s0 s1 s2 : state) (l : loc) (ba : arguments) (q : plain) (o : outcome) :
  ensure_callback cb ca fo = Ok w ->
  fn_code fo = PlainCode body ->
  _bindargs_and_get_callobj (fn_signature fo) cb a s0 = (Ok (l, ba), s1) ->
  heap s1 !! l = Some q -> q <> PNone ->
  exec (body ba) s1 = (o, s2) ->
  exists r s3,
    call_wrapper w a s0 = (r, s3) /\
    heap s3 !! l = Some PNone /\
    length (consumptions l (since s0 s3)) = 1 /\
    ((exists a', token_calls l (since s0 s3) = [(q, a')]) \/
     (token_calls l (since s0 s3) = [] /\ ERelease l q ∈ since s1 s2)).
Proof.
  intros Hw Hc Hb Hl Nq He.
  destruct (plain_phases _ _ _ _ _ _ _ _ _ _ _ _ Hw Hc Hb He)
    as (t01 & t12 & q1 & s3 & T1 & N1 & C1 & H1 & T2 & Co & H2 & T3 & H3 & R).
  rewrite Hl in H1. injection H1 as <-.
  eexists _, s3. split; [exact R|]. split; [exact H3|].
  rewrite (since_app _ _ _ T2).
  assert (trace s3 = trace s0 ++ (t01 ++ t12 ++ [EInvoke l ca (after l q t12)])) as T.
  { rewrite T3, T2, T1. by rewrite <- !app_assoc. }
  rewrite (since_app _ _ _ T), !consumptions_app, !token_calls_app.
  destruct (no_events_no_calls _ _ N1) as [-> ->]. rewrite !app_nil_l.
  destruct (coherent_first _ _ _ Co) as [N|(u1 & e & u2 & -> & N & O & F & C')].
  - assert (after l q t12 = q) as -> by (unfold after; by rewrite N).
    destruct (no_events_no_calls _ _ N) as [-> ->].
    assert (consuming l (EInvoke l ca q) = true) as Cq
      by (apply consuming_found; [simpl; by apply bool_decide_eq_true | done]).
    simpl. rewrite Cq. simpl. eauto.
  - destruct (first_consumes _ _ _ _ _ N O F Nq C') as (Ec & Et & ->).
    rewrite Ec, Et. destruct (noop_invoke l ca) as [-> ->].
    rewrite !app_nil_r. split; [done|].
    destruct (on_token_cases _ _ O) as [[a' E]|E]; rewrite F in E; subst e.
    + left. exists a'. by apply token_calls_invoke.
    + right. split; [done|]. apply elem_of_app. right. apply list_elem_of_here.
Qed.

(** X5.  A wrapped plain function may be called with [None] as its
    callback: the token made by the binder is then empty from the start.
    The finalization step applies nothing and cannot raise, so the caller
    gets the outcome of the body unchanged, and no operation of the call
    consumes.  A body that hands such a token to [release_callback] gets
    the error of a double release. *)
Theorem none_callback_is_never_invoked
    (cb : string) (ca : call_args) (fo : function) (w : wrapper)
    (body : arguments -> prog Empty_set) (a : call_args)
    (s0 s1 s2 : state) (l : loc) (ba : arguments) (o : outcome) :
  ensure_callback cb ca fo = Ok w ->
  fn_code fo = PlainCode body ->
  _bindargs_and_get_callobj (fn_signature fo) cb a s0 = (Ok (l, ba), s1) ->
  heap s1 !! l = Some PNone ->
  exec (body ba) s1 = (o, s2) ->
  release_callback (VToken l) s1 = (Err already_released, log (ERelease l PNone) s1) /\
  exists s3,
    call_wrapper w a s0 = (returns o, s3) /\
    since s2 s3 = [EInvoke l ca PNone] /\
    consumptions l (since s0 s3) = [] /\
    token_calls l (since s0 s3) = [] /\
    (forall f, calls_to f (since s0 s3) = calls_to f (since s1 s2)).
Proof.
  intros Hw Hc Hb Hl He.
  split; [simpl; unfold CallbackWrapper_release; by rewrite Hl|].
  destruct (plain_phases _ _ _ _ _ _ _ _ _ _ _ _ Hw Hc Hb He)
    as (t01 & t12 & q1 & s3 & T1 & N1 & C1 & H1 & T2 & Co & H2 & T3 & H3 & R).
  rewrite Hl in H1. injection H1 as <-. rewrite after_none in *.
  exists s3. split; [exact R|]. split; [by apply since_app|].
  rewrite (since_app _ _ _ T2).
  assert (trace s3 = trace s0 ++ (t01 ++ t12 ++ [EInvoke l ca PNone])) as T.
  { rewrite T3, T2, T1. by rewrite <- !app_assoc. }
  rewrite (since_app _ _ _ T), !consumptions_app, !token_calls_app.
  destruct (no_events_no_calls _ _ N1) as [-> ->].
  destruct (coherent_empty _ _ Co) as [-> ->].
  simpl. unfold consuming. simpl. rewrite andb_false_r.
  repeat split; try done.
  intros f. rewrite !calls_to_app, C1. simpl. by rewrite app_nil_r.
Qed.

(** X6.  The wrapper is transparent for a callback that does not raise:
    if after binding the token holds the callable [f], and [f] returns
    normally on the decoration-time arguments in every store, then
    whatever the body does with the token the caller gets exactly the
    outcome of the body, a returned value or a raised exception. *)
Theorem wrapper_is_transparent
    (cb : string) (ca : call_args) (fo : function) (w : wrapper)
    (body : arguments -> prog Empty_set) (a : call_args)
    (s0 s1 s2 : state) (l : loc) (ba : arguments) (f : fn_id) (o : outcome) :
  ensure_callback cb ca fo = Ok w ->
  fn_code fo = PlainCode body ->
  _bindargs_and_get_callobj (fn_signature fo) cb a s0 = (Ok (l, ba), s1) ->
  heap s1 !! l = Some (PFun f) ->
  (forall s, exists v, behaviour f ca s = Ok v) ->
  exec (body ba) s1 = (o, s2) ->
  fst (call_wrapper w a s0) = returns o.
Proof.
  intros Hw Hc Hb Hl Hf He.
  destruct (plain_phases _ _ _ _ _ _ _ _ _ _ _ _ Hw Hc Hb He)
    as (t01 & t12 & q1 & s3 & T1 & N1 & C1 & H1 & T2 & Co & H2 & T3 & H3 & R).
  rewrite Hl in H1. injection H1 as <-. rewrite R. simpl.
  unfold after. destruct (token_events l t12); simpl; [|done].
  by destruct (Hf s3) as [v ->].
Qed.

(** ** Chains of wrapped calls *)

Lemma evolves_try_finally {A B} (body : M A) (fin : M B) (s : state) :
  (forall s', evolves s' (snd (body s'))) ->
  (forall s', evolves s' (snd (fin s'))) ->
  evolves s (snd (try_finally body fin s)).
Proof.
  intros Hb Hf. unfold try_finally.
  pose proof (Hb s) as E1. destruct (body s) as [r s1]. simpl in E1.
  pose proof (Hf s1) as E2. destruct (fin s1) as [[?|?] s2]; simpl in *;
    by eapply evolves_trans.
Qed.

Lemma evolves_bind {A B} (m : M A) (k : A -> M B) (s : state) :
  (forall s', evolves s' (snd (m s'))) ->
  (forall x s', evolves s' (snd (k x s'))) ->
  evolves s (snd (bind m k s)).
Proof.
  intros Hm Hk. unfold bind.
  pose proof (Hm s) as E1. destruct (m s) as [[x|e] s1]; simpl in *; [|done].
  eapply evolves_trans; [exact E1 | apply Hk].
Qed.

Lemma evolves_plain_wrapper (w : wrapper) (body : arguments -> prog Empty_set)
    (a : call_args) (s : state) :
  evolves s (snd (plain_wrapper w body a s)).
Proof.
  unfold plain_wrapper. apply evolves_bind.
  - intros s'. apply evolves_bindargs.
  - intros [l ba] s'. apply evolves_try_finally.
    + intros s''. apply evolves_exec.
    + intros s''. apply evolves_call.
Qed.

Lemma evolves_chain (levels : list level) (w : wrapper)
    (body : arguments -> prog Empty_set) (a : call_args) (s : state) :
  evolves s (snd (chain levels w body a s)).
Proof.
  revert a s. induction levels as [|lv rest IH]; intros a s; simpl.
  - apply evolves_plain_wrapper.
  - apply evolves_bind.
    + intros s'. apply evolves_bindargs.
    + intros [l ba] s'. apply evolves_try_finally.
      * intros s''. apply evolves_bind; [intros; apply IH|].
        intros _ s3. apply evolves_refl.
      * intros s''. apply evolves_call.
Qed.

(** Entering a wrapped function with a callback that is, or holds, the
    value [p]. *)
Lemma binder_enters (sig : signature) (cb : string) (a : call_args)
    (s : state) (v : value) (p : plain) :
  binds_callback (sig, cb) a v -> holds s v p -> p <> PNone ->
  exists ba s1 t,
    _bindargs_and_get_callobj sig cb a s = (Ok (length (heap s), ba), s1) /\
    ba !! cb = Some (VToken (length (heap s))) /\
    trace s1 = trace s ++ t /\ Forall is_move t /\
    heap s1 !! length (heap s) = Some p /\
    (forall l0, v = VToken l0 -> heap s1 !! l0 = Some PNone).
Proof.
  intros (bound & Hb & Hv) Hh Np. simpl in Hb, Hv.
  rewrite binder_unfold, Hb, Hv.
  destruct (init_cases v s)
    as [(p' & -> & E)|[(l0 & q & -> & H0 & N & E)
       |[(l0 & -> & H0 & E)|(l0 & -> & H0 & E)]]];
    simpl in Hh; rewrite E.
  - subst p'. eexists _, _, []. split; [reflexivity|].
    split; [by rewrite lookup_insert_eq|]. simpl. rewrite app_nil_r.
    repeat split; try done. by rewrite lookup_app_r, Nat.sub_diag.
  - rewrite H0 in Hh. injection Hh as ->.
    assert (l0 < length (heap s)) as Lt by (by eapply lookup_lt_Some).
    eexists _, _, [ERelease l0 p]. split; [reflexivity|].
    split; [by rewrite lookup_insert_eq|]. simpl.
    split; [done|]. split; [apply Forall_singleton; by eexists _, _|].
    split.
    + rewrite lookup_app_r by (by rewrite length_insert).
      by rewrite length_insert, Nat.sub_diag.
    + intros ? [= <-]. rewrite lookup_app_l by (by rewrite length_insert).
      by apply list_lookup_insert_eq.
  - congruence.
  - congruence.
Qed.

Lemma calls_to_moves (g : fn_id) (t : list event) :
  Forall is_move t -> calls_to g t = [].
Proof.
  induction 1 as [|e t (l & q & ->) _ IH]; simpl; done.
Qed.

Lemma calls_to_noops (g : fn_id) (t : list event) :
  Forall is_noop_invoke t -> calls_to g t = [].
Proof.
  induction 1 as [|e t (l & a & ->) _ IH]; simpl; done.
Qed.

Lemma passes_up_cons (lv : level) (rest : list level) (r : outcome) :
  match passes_up rest r with Ok _ => Ok VNone | Err e => Err e end
  = passes_up (lv :: rest) r.
Proof. destruct rest, r; done. Qed.

(** The chain, level by level: the functions above the last one only
    move the callable down before the last wrapped call, and only invoke
    empty tokens after it. *)
Lemma chain_spec (w : wrapper) (body : arguments -> prog Empty_set) (f : fn_id)
    (levels : list level) (a : call_args) (s : state) (v : value) :
  linked levels w ->
  binds_callback (entry levels w) a v ->
  holds s v (PFun f) ->
  exists ln ban sa r_in s_in sfin t_pre t_post,
    heap sa !! ln = Some (PFun f) /\
    ban !! w_callback_name w = Some (VToken ln) /\
    try_finally (exec (body ban))
      (CallbackWrapper_call ln (w_callback_args w)) sa = (r_in, s_in) /\
    chain levels w body a s = (passes_up levels r_in, sfin) /\
    trace sa = trace s ++ t_pre /\ Forall is_move t_pre /\
    trace sfin = trace s_in ++ t_post /\ Forall is_noop_invoke t_post /\
    length t_post = length levels /\
    (forall l0, v = VToken l0 -> heap sfin !! l0 = Some PNone).
Proof.
  revert a s v. induction levels as [|lv rest IH]; intros a s v Hl Hb Hh.
  - simpl in Hb.
    destruct (binder_enters _ _ _ _ _ _ Hb Hh) as (ba & s1 & t & B & Hc & T & Mv & H1 & H0);
      [done|].
    destruct (try_finally (exec (body ba))
                (CallbackWrapper_call (length (heap s)) (w_callback_args w)) s1)
      as [r_in s_in] eqn:TF.
    exists (length (heap s)), ba, s1, r_in, s_in, s_in, t, [].
    repeat (split; [done|]). split.
    { simpl. unfold plain_wrapper, bind. by rewrite B, TF. }
    repeat (split; [done|]). split; [by rewrite app_nil_r|].
    repeat (split; [done|]).
    intros l0 E. eapply evolves_empty; [|exact (H0 l0 E)].
    pose proof (evolves_try_finally (exec (body ba))
                  (CallbackWrapper_call (length (heap s)) (w_callback_args w)) s1
                  (fun s' => evolves_exec _ s') (fun s' => evolves_call _ _ s')) as Ev.
    by rewrite TF in Ev.
  - destruct Hl as [Ho Hl]. simpl in Hb.
    destruct (binder_enters _ _ _ _ _ _ Hb Hh) as (ba & s1 & t & B & Hc & T & Mv & H1 & H0);
      [done|].
    specialize (Ho ba _ Hc).
    destruct (IH (lv_pass lv ba) s1 (VToken (length (heap s))) Hl Ho H1)
      as (ln & ban & sa & r_in & s_in & sfin' & t_pre & t_post
          & Ha & Hn & TF & Ch & Tp & Mp & Tq & Nq & Lq & Hz).
    specialize (Hz _ eq_refl).
    exists ln, ban, sa, r_in, s_in,
      (log (EInvoke (length (heap s)) (lv_callback_args lv) PNone) sfin'),
      (t ++ t_pre), (t_post ++ [EInvoke (length (heap s)) (lv_callback_args lv) PNone]).
    repeat (split; [done|]). split.
    { rewrite <- (passes_up_cons lv). cbn [chain].
      unfold bind at 1. rewrite B. unfold try_finally, bind. rewrite Ch.
      destruct (passes_up rest r_in); unfold ret, CallbackWrapper_call;
        by rewrite Hz. }
    split; [rewrite Tp, T; by rewrite app_assoc|].
    split; [by apply Forall_app|].
    split; [simpl; rewrite Tq; by rewrite app_assoc|].
    split; [apply Forall_app; split; [done|apply Forall_singleton; by eexists _, _]|].
    split; [rewrite length_app; simpl; lia|].
    intros l0 E. simpl. eapply evolves_empty; [|exact (H0 l0 E)].
    pose proof (evolves_chain rest w body (lv_pass lv ba) s1) as Ev.
    by rewrite Ch in Ev.
Qed.

(** X7 (chained ownership).  A chain of decorated functions, each
    handing its token on to the next, is entered with a callback that is,
    or holds, the callable [f].  Then the token of the last function
    holds [f] when its body starts, and over the whole chain [f] is
    applied as often as the last body applies it by other routes than its
    token, plus once with the arguments of the last decorator if that
    body performed no operation on its token: no decorator above the last
    one ever applies anything.  If [f] cannot raise on those arguments,
    the caller gets the outcome of the last body, passed up the chain. *)
Theorem chained_ownership
    (w : wrapper) (body : arguments -> prog Empty_set) (f : fn_id)
    (levels : list level) (a : call_args) (s : state) (v : value) :
  linked levels w ->
  binds_callback (entry levels w) a v ->
  holds s v (PFun f) ->
  exists ln ban sa sb o,
    heap sa !! ln = Some (PFun f) /\
    ban !! w_callback_name w = Some (VToken ln) /\
    exec (body ban) sa = (o, sb) /\
    calls_to f (since s (snd (chain levels w body a s))) =
      calls_to f (since sa sb) ++
      (if decide (token_events ln (since sa sb) = [])
       then [w_callback_args w] else []) /\
    ((forall s', exists x, behaviour f (w_callback_args w) s' = Ok x) ->
     fst (chain levels w body a s) = passes_up levels o).
Proof.
  intros Hl Hb Hh.
  destruct (chain_spec w body f levels a s v Hl Hb Hh)
    as (ln & ban & sa & r_in & s_in & sfin & t_pre & t_post
        & Ha & Hn & TF & Ch & Tp & Mp & Tq & Nq & _ & _).
  destruct (exec (body ban) sa) as [o sb] eqn:He.
  pose proof (evolves_exec (body ban) sa) as (tb & Tb & _ & Hc).
  rewrite He in Tb, Hc. simpl in Tb, Hc.
  destruct (Hc ln _ Ha) as [Co Hq].
  destruct (call_spec ln (w_callback_args w) sb _ Hq) as (o' & s3 & Cl & T3 & _ & Ho).
  unfold try_finally in TF. rewrite He, Cl in TF.
  exists ln, ban, sa, sb, o. repeat (split; [done|]).
  rewrite Ch. simpl fst. simpl snd. rewrite (since_app _ _ _ Tb).
  assert (s_in = s3) as -> by (destruct o'; by injection TF).
  assert (trace sfin = trace s ++
            (t_pre ++ tb ++ [EInvoke ln (w_callback_args w) (after ln (PFun f) tb)]
             ++ t_post)) as T.
  { rewrite Tq, T3, Tb, Tp. by rewrite <- !app_assoc. }
  rewrite (since_app _ _ _ T), !calls_to_app.
  rewrite (calls_to_moves _ _ Mp), (calls_to_noops _ _ Nq), app_nil_r.
  unfold after in *. case_decide as N.
  - rewrite N in *. split; [simpl; by rewrite decide_True|].
    intros Hf. destruct (Hf s3) as [x Hx]. simpl in Ho. rewrite Hx in Ho.
    subst o'. simpl in TF. congruence.
  - destruct (token_events ln tb); [done|]. split; [done|].
    intros _. subst o'. simpl in TF. congruence.
Qed.

(** ** Consumers of a wrapped generator *)

Lemma gen_finally_empties (w : wrapper) (l : loc) (pending : option exn)
    (s : state) :
  is_Some (heap s !! l) ->
  evolves s (snd (gen_finally w l pending s)) /\
  heap (snd (gen_finally w l pending s)) !! l = Some PNone.
Proof.
  intros [q Hq]. unfold gen_finally.
  pose proof (evolves_call l (w_callback_args w) s) as E.
  destruct (call_spec l (w_callback_args w) s q Hq) as (o & s' & C & _ & Hp & _).
  rewrite C in E |- *. simpl in E.
  assert (heap s' !! l = Some PNone)
    by (rewrite Hp; apply list_lookup_insert_eq; by eapply lookup_lt_Some).
  by destruct o.
Qed.

(** A [next] inside [yield from]: the frame stays on the same token, or
    unwinds and leaves the token empty. *)
Lemma delegate_next_frames (w : wrapper) (l : loc) (inner : generator) (s : state) :
  is_Some (heap s !! l) ->
  evolves s (snd (delegate_next w l inner s)) /\
  ((exists inner', fst (fst (delegate_next w l inner s)) = Delegating l inner') \/
   (fst (fst (delegate_next w l inner s)) = Unwound /\
    heap (snd (delegate_next w l inner s)) !! l = Some PNone)).
Proof.
  intros Al. unfold delegate_next.
  pose proof (evolves_gen_next inner s) as E.
  destruct (gen_next inner s) as [[inner' r] s1]. simpl in E.
  pose proof (evolves_allocated l _ _ E Al) as Al1.
  destruct r as [v| |e].
  - simpl. split; [done|]. left. by eexists.
  - destruct (gen_finally_empties w l None s1 Al1) as [E2 H2].
    destruct (gen_finally w l None s1) as [[?|] s2]; simpl in *;
      (split; [by eapply evolves_trans|by right]).
  - destruct (gen_finally_empties w l (Some e) s1 Al1) as [E2 H2].
    destruct (gen_finally w l (Some e) s1) as [[?|] s2]; simpl in *;
      (split; [by eapply evolves_trans|by right]).
Qed.

Lemma wrapper_close_frames (w : wrapper) (l : loc) (inner : generator) (s : state) :
  is_Some (heap s !! l) ->
  evolves s (snd (wrapper_close w (Delegating l inner) s)) /\
  fst (fst (wrapper_close w (Delegating l inner) s)) = Unwound /\
  heap (snd (wrapper_close w (Delegating l inner) s)) !! l = Some PNone.
Proof.
  intros Al. simpl.
  pose proof (evolves_gen_close inner s) as E.
  destruct (gen_close inner s) as [[g r] s1]. simpl in E.
  pose proof (evolves_allocated l _ _ E Al) as Al1.
  set (pending := match r with Some e => e | None => GeneratorExit end).
  destruct (gen_finally_empties w l (Some pending) s1 Al1) as [E2 H2].
  destruct (gen_finally w l (Some pending) s1) as [[e|] s2]; simpl in *.
  - case_decide; simpl; (split; [by eapply evolves_trans|done]).
  - split; [by eapply evolves_trans|done].
Qed.

Lemma consume_unwound (w : wrapper) (body : arguments -> prog value)
    (script : list resume) (s : state) :
  consume w body script Unwound s = ((Unwound, spent <$> script), s).
Proof.
  induction script as [|[] script IH]; simpl; [done| |]; by rewrite IH.
Qed.

Lemma consume_delegating (w : wrapper) (body : arguments -> prog value)
    (script : list resume) (l : loc) (inner : generator) (s : state) :
  is_Some (heap s !! l) ->
  evolves s (snd (consume w body script (Delegating l inner) s)) /\
  ((exists inner', fst (fst (consume w body script (Delegating l inner) s))
                   = Delegating l inner') \/
   (fst (fst (consume w body script (Delegating l inner) s)) = Unwound /\
    heap (snd (consume w body script (Delegating l inner) s)) !! l = Some PNone)).
Proof.
  revert inner s. induction script as [|op script IH]; intros inner s Al.
  - simpl. split; [apply evolves_refl|]. left. by eexists.
  - destruct op.
    + cbn [consume wrapper_next].
      destruct (delegate_next_frames w l inner s Al) as [E [[inner' F]|[F H]]];
        destruct (delegate_next w l inner s) as [[fr1 r] s1]; simpl in E, F; subst fr1.
      * pose proof (evolves_allocated l _ _ E Al) as Al1.
        destruct (IH inner' s1 Al1) as [E2 D].
        destruct (consume w body script (Delegating l inner') s1) as [[fr2 os] s2].
        simpl in *. split; [by eapply evolves_trans|done].
      * simpl in H. rewrite consume_unwound. simpl. split; [done|by right].
    + cbn [consume].
      destruct (wrapper_close_frames w l inner s Al) as (E & F & H).
      destruct (wrapper_close w (Delegating l inner) s) as [[fr1 r] s1].
      simpl in E, F, H. subst fr1. rewrite consume_unwound. simpl.
      split; [done|by right].
Qed.

Lemma consumed_once (l : loc) (q : plain) (t : list event) :
  coherent l q t -> q <> PNone -> after l q t = PNone ->
  length (consumptions l t) = 1.
Proof.
  intros Co Nq A.
  destruct (coherent_first _ _ _ Co) as [N|(u1 & e & u2 & -> & N & O & F & C')].
  - unfold after in A. rewrite N in A. done.
  - by destruct (first_consumes _ _ _ _ _ N O F Nq C') as (-> & _).
Qed.

(** X8.  A generator function is decorated, and its first [next] binds
    the arguments and makes the token [l], holding [q].  Whatever the
    consumer then does with the generator, any sequence of [next] and
    [close], and whatever the body does: at most one operation on the
    token ever consumes; the generator is either still suspended on the
    same token or unwound; and once it has unwound the token is empty
    and, if [q] is not [None], exactly one operation consumed it. *)
Theorem generator_consumes_exactly_once
    (cb : string) (ca : call_args) (fo : function) (w : wrapper)
    (body : arguments -> prog value) (a : call_args)
    (s0 s1 : state) (l : loc) (ba : arguments) (q : plain)
    (script : list resume) :
  ensure_callback cb ca fo = Ok w ->
  fn_code fo = GeneratorCode body ->
  _bindargs_and_get_callobj (fn_signature fo) cb a s0 = (Ok (l, ba), s1) ->
  heap s1 !! l = Some q ->
  exists fr os s',
    consume w body (Next :: script) (Created a) s0 = ((fr, os), s') /\
    length (consumptions l (since s0 s')) <= 1 /\
    ((exists inner, fr = Delegating l inner) \/
     (fr = Unwound /\ heap s' !! l = Some PNone /\
      (q <> PNone -> length (consumptions l (since s0 s')) = 1))).
Proof.
  intros Hw Hc Hb Hq. apply ensure_callback_ok in Hw as [-> _].
  destruct (bindargs_spec _ _ _ _ _ _ _ Hb) as (_ & _ & t01 & q1 & T1 & H1 & N1 & _).
  rewrite Hq in H1. injection H1 as <-.
  assert (is_Some (heap s1 !! l)) as Al by eauto.
  pose proof (consume_delegating (Wrapper fo cb ca) body (Next :: script) l
                (Unstarted (body ba)) s1 Al) as [E D].
  assert (consume (Wrapper fo cb ca) body (Next :: script) (Created a) s0
          = consume (Wrapper fo cb ca) body (Next :: script)
              (Delegating l (Unstarted (body ba))) s1) as ->.
  { cbn [consume wrapper_next]. simpl. by rewrite Hb. }
  destruct (consume (Wrapper fo cb ca) body (Next :: script)
              (Delegating l (Unstarted (body ba))) s1) as [[fr os] s'].
  simpl in E, D. exists fr, os, s'. split; [done|].
  destruct E as (t & T & _ & H). destruct (H l q Hq) as [Co A].
  assert (trace s' = trace s0 ++ (t01 ++ t)) as T'
    by (rewrite T, T1; by rewrite <- app_assoc).
  rewrite (since_app _ _ _ T'), consumptions_app.
  destruct (no_events_no_calls _ _ N1) as [_ ->]. simpl.
  split; [by eapply coherent_at_most_once|].
  destruct D as [D|[-> Hn]]; [by left|right].
  repeat split; [done|]. intros Nq. apply (consumed_once l q t Co Nq). congruence.
Qed.

(** ** Wrapping and releasing *)

(** X10.  Wrapping a value that is, or holds, a callable [p] and then
    releasing the new token gives [p] back: the raw callable comes out,
    never a token; the new token and the token it was taken from, if any,
    are both empty afterwards; and handing the raw callable to
    [release_callback] once more returns it and changes nothing. *)
Theorem wrap_then_release_round_trip (v : value) (s : state) (p : plain) :
  holds s v p -> p <> PNone ->
  exists l s1 s2,
    CallbackWrapper_init v s = (Ok l, s1) /\
    release_callback (VToken l) s1 = (Ok p, s2) /\
    heap s2 !! l = Some PNone /\
    (forall l0, v = VToken l0 -> l0 <> l /\ heap s2 !! l0 = Some PNone) /\
    release_callback (VPlain p) s2 = (Ok p, s2) /\
    (forall g, calls_to g (since s s2) = []).
Proof.
  intros Hh Np.
  assert (forall h : list plain, (h ++ [p]) !! length h = Some p) as Last
    by (intros h; by rewrite lookup_app_r, Nat.sub_diag).
  destruct (init_cases v s)
    as [(p' & -> & E)|[(l0 & q & -> & H0 & N & E)
       |[(l0 & -> & H0 & E)|(l0 & -> & H0 & E)]]];
    simpl in Hh; try congruence.
  - subst p'. set (s1 := State (heap s ++ [p]) (trace s)) in *.
    assert (heap s1 !! length (heap s) = Some p) as H1 by apply Last.
    destruct (release_spec _ _ _ H1) as (r & s2 & R & T & Hp & Hr).
    exists (length (heap s)), s1, s2. split; [done|]. split.
    { simpl. rewrite R, Hr. by destruct p. }
    split; [rewrite Hp; apply list_lookup_insert_eq; by eapply lookup_lt_Some|].
    split; [done|]. split; [done|].
    intros g. by rewrite (since_app s s2 _ T).
  - rewrite H0 in Hh. injection Hh as ->.
    assert (l0 < length (heap s)) as Lt by (by eapply lookup_lt_Some).
    set (s1 := State (<[l0:=PNone]> (heap s) ++ [p]) (trace s ++ [ERelease l0 p])) in *.
    assert (heap s1 !! length (heap s) = Some p) as H1.
    { simpl. rewrite <- (length_insert (heap s) l0 PNone). apply Last. }
    destruct (release_spec _ _ _ H1) as (r & s2 & R & T & Hp & Hr).
    exists (length (heap s)), s1, s2. split; [done|]. split.
    { simpl. rewrite R, Hr. by destruct p. }
    split; [rewrite Hp; apply list_lookup_insert_eq; by eapply lookup_lt_Some|].
    split.
    { intros ? [= <-]. split; [lia|]. rewrite Hp.
      rewrite list_lookup_insert_ne by lia. simpl.
      rewrite lookup_app_l by (by rewrite length_insert).
      by apply list_lookup_insert_eq. }
    split; [done|].
    intros g.
    assert (trace s2 = trace s ++ [ERelease l0 p; ERelease (length (heap s)) p]) as T'
      by (rewrite T; simpl; by rewrite <- app_assoc).
    by rewrite (since_app _ _ _ T').
Qed.

(** ** More on generators and bodies *)

Lemma gen_close_not_exit (g g' : generator) (s s' : state) (e : exn) :
  gen_close g s = ((g', Some e), s') -> exn_type e <> "GeneratorExit".
Proof.
  destruct g as [p|k|]; simpl; try discriminate.
  destruct (run (k Close) s) as [[[?|e0]|? ?] ?]; try discriminate.
  - case_decide as N; [discriminate|]. intros [= <- <- <-].
    unfold leave_frame. by case_decide.
  - by intros [= <- <- <-].
Qed.

(** X11.  The wrapper of a generator function is transparent for a
    callback that does not raise, up to the value the generator returns.
    While the wrapper is inside [yield from] on the token [l], which
    holds [None] or a value that returns normally on the decoration-time
    arguments in every store, a [next] on it gives the value that [next]
    on the generator of the decorated function yields, or the exception
    it raises; when that generator returns, with whatever value, the
    wrapper's generator returns [None].  A [close] on it gives what
    [close] on that generator gives. *)
Theorem generator_wrapper_is_transparent
    (w : wrapper) (body : arguments -> prog value)
    (l : loc) (inner : generator) (s : state) (q : plain) :
  heap s !! l = Some q ->
  (q = PNone \/ forall s', exists x, apply_callable q (w_callback_args w) s' = Ok x) ->
  snd (fst (wrapper_next w body (Delegating l inner) s))
  = drop_return (snd (fst (gen_next inner s))) /\
  snd (fst (wrapper_close w (Delegating l inner) s)) = snd (fst (gen_close inner s)).
Proof.
  intros Hq Hf.
  assert (forall pending s1, evolves s s1 ->
            fst (gen_finally w l pending s1) = pending) as Fin.
  { intros pending s1 (t & _ & _ & H). destruct (H l q Hq) as [_ A].
    unfold gen_finally.
    destruct (call_spec l (w_callback_args w) s1 _ A) as (o & s2 & -> & _ & _ & ->).
    unfold after. destruct (token_events l t); [|done].
    destruct Hf as [->|Hf]; [done|].
    destruct (Hf s2) as [x Hx]. destruct q; try done; by rewrite Hx. }
  split.
  - cbn [wrapper_next]. unfold delegate_next.
    pose proof (evolves_gen_next inner s) as E.
    destruct (gen_next inner s) as [[inner' r] s1]. simpl in E.
    destruct r as [v|v|e]; simpl; [done| |].
    + pose proof (Fin None s1 E) as F.
      by destruct (gen_finally w l None s1) as [[?|] ?].
    + pose proof (Fin (Some e) s1 E) as F.
      destruct (gen_finally w l (Some e) s1) as [[?|] ?]; simpl in *; congruence.
  - simpl.
    pose proof (evolves_gen_close inner s) as E.
    destruct (gen_close inner s) as [[g r] s1] eqn:G. simpl in E.
    set (pending := match r with Some e => e | None => GeneratorExit end).
    pose proof (Fin (Some pending) s1 E) as F.
    destruct (gen_finally w l (Some pending) s1) as [[e|] s2]; simpl in *;
      [|discriminate].
    injection F as ->. subst pending. destruct r as [e|].
    + rewrite decide_False; [done|]. by eapply gen_close_not_exit.
    + by rewrite decide_True.
Qed.

(** X12.  At most once, for every body.  Whatever a body does, on the
    token at hand, on other tokens and on raw callables, at most one of
    its operations consumes a given token; the token holds afterwards
    what it held if the body performed no operation on it, and is empty
    otherwise; and whatever was applied through it is what it held. *)
Theorem body_consumes_at_most_once
    {Y} (p : prog Y) (s : state) (l : loc) (q : plain) :
  heap s !! l = Some q ->
  length (consumptions l (since s (snd (run p s)))) <= 1 /\
  heap (snd (run p s)) !! l =
    Some (if decide (token_events l (since s (snd (run p s))) = []) then q else PNone) /\
  (forall x a, (x, a) ∈ token_calls l (since s (snd (run p s))) -> x = q).
Proof.
  intros Hq. destruct (evolves_run p s) as (t & T & _ & H).
  rewrite (since_app _ _ _ T). destruct (H l q Hq) as [Co A].
  split; [by eapply coherent_at_most_once|]. split.
  - rewrite A. unfold after. case_decide as N; [by rewrite N|].
    by destruct (token_events l t).
  - intros x a I.
    destruct (coherent_first _ _ _ Co) as [N|(u1 & e & u2 & -> & N & O & F & C')].
    + apply no_events_no_calls in N as [N _]. rewrite N in I.
      by apply elem_of_nil in I.
    + change (e :: u2) with ([e] ++ u2) in I. rewrite !token_calls_app in I.
      apply no_events_no_calls in N as [N _].
      apply coherent_empty in C' as [C' _].
      rewrite N, C', app_nil_r in I. simpl in I.
      destruct e as [l' a' p'|l' p'|p' a']; simpl in *; try by apply elem_of_nil in I.
      destruct (consuming l (EInvoke l' a' p')); [|by apply elem_of_nil in I].
      apply list_elem_of_singleton in I. congruence.
Qed.

End Semantics.

(** * The properties on the functions of the test suite *)

Lemma guaranteed_invocation_witness :
  exists s3,
    call_wrapper sample_behaviour simple_bind simple_defaults
      (Wrapper (fn_plain body_return) "callback" one) (to "m") empty_state
    = (Ok (Returns (VPlain (PInt 5))), s3) /\
    token_calls 0 (since empty_state s3) = [(PFun "m", one)].
Proof.
  destruct (guaranteed_invocation sample_behaviour simple_bind simple_defaults
              "callback" one (fn_plain body_return)
              (Wrapper (fn_plain body_return) "callback" one)
              body_return (to "m") empty_state (holding "m") (holding "m")
              0 (bound_token 0) "m" (Ok (VPlain (PInt 5))))
    as (s3 & R & _ & C & _);
    [reflexivity | reflexivity | vm_compute; reflexivity | reflexivity
    | reflexivity | reflexivity |].
  exists s3. split; [exact R | exact C].
Defined.

Lemma token_at_most_once_witness :
  length (consumptions 0
            (since (holding "m")
               (snd (run_ops sample_behaviour 0
                       [Invoke one; ReleaseIt; Invoke one] (holding "m"))))) <= 1 /\
  fst (run_ops sample_behaviour 0 [Invoke one; ReleaseIt; Invoke one] (holding "m"))
    !! 1 = Some (Err already_released).
Proof.
  destruct (token_at_most_once sample_behaviour 0
              [Invoke one; ReleaseIt; Invoke one] (holding "m")) as [L A].
  split; [exact L|].
  destruct (A [Invoke one] ReleaseIt [Invoke one]) as [R _];
    [reflexivity | vm_compute; discriminate | exact R].
Defined.

Lemma ownership_precedence_witness :
  exists s3,
    call_wrapper sample_behaviour simple_bind simple_defaults
      (Wrapper (fn_plain body_invoke) "callback" no_args) (to "m") empty_state
    = (Ok (Returns (VPlain (PStr "string_res"))), s3) /\
    token_calls 0 (since empty_state s3) = [(PFun "m", one)].
Proof.
  destruct (ownership_precedence sample_behaviour simple_bind simple_defaults
              "callback" no_args (fn_plain body_invoke)
              (Wrapper (fn_plain body_invoke) "callback" no_args)
              body_invoke (to "m") empty_state (holding "m")
              0 (bound_token 0) "m" one
              (uncaught (fun _ => Return Empty_set (VPlain (PStr "string_res"))))
              (holding "m"))
    as (s_inv & o & s2 & s3 & _ & _ & He & _ & R & _ & C & _);
    [reflexivity | reflexivity | vm_compute; reflexivity | reflexivity
    | vm_compute; reflexivity |].
  vm_compute in He. injection He as <- _.
  exists s3. split; [exact R | exact C].
Defined.

(** C3 does not hold for every invoke of the token by the body: the body
    calls [callback(2)] and then [callback(1)]; it does invoke the token
    with the arguments [(1)], but the callback is applied to [(2)] only. *)
Lemma later_invoke_is_not_delivered :
  ~ (forall behaviour sig_bind apply_defaults
       (cb : string) (ca : call_args) (fo : function) (w : wrapper)
       (body : arguments -> prog Empty_set) (a : call_args)
       (s0 s1 s2 : state) (l : loc) (ba : arguments) (f : fn_id) (o : outcome)
       (A : call_args) (q : plain),
       ensure_callback cb ca fo = Ok w ->
       fn_code fo = PlainCode body ->
       _bindargs_and_get_callobj sig_bind apply_defaults
         (fn_signature fo) cb a s0 = (Ok (l, ba), s1) ->
       heap s1 !! l = Some (PFun f) ->
       exec behaviour (body ba) s1 = (o, s2) ->
       EInvoke l A q ∈ since s1 s2 ->
       calls_to f
         (since s0 (snd (call_wrapper behaviour sig_bind apply_defaults w a s0)))
       = [A]).
Proof.
  intros H.
  specialize (H sample_behaviour simple_bind simple_defaults
                "callback" no_args (fn_plain body_invoke_twice)
                (Wrapper (fn_plain body_invoke_twice) "callback" no_args)
                body_invoke_twice (to "m") empty_state (holding "m")
                (State [PNone] [EInvoke 0 two (PFun "m"); EInvoke 0 one PNone])
                0 (bound_token 0) "m" (Ok (VPlain (PStr "string_res")))
                one PNone).
  assert (calls_to "m"
            (since empty_state
               (snd (call_wrapper sample_behaviour simple_bind simple_defaults
                       (Wrapper (fn_plain body_invoke_twice) "callback" no_args)
                       (to "m") empty_state)))
          = [two]) as E by (vm_compute; reflexivity).
  rewrite H in E;
    [discriminate | reflexivity | reflexivity | vm_compute; reflexivity
    | reflexivity | vm_compute; reflexivity
    | apply list_elem_of_further, list_elem_of_here].
Qed.

Lemma release_suppresses_finalization_witness :
  exists s3,
    call_wrapper sample_behaviour simple_bind simple_defaults
      (Wrapper (fn_plain body_release_raise) "callback" no_args) (to "m") empty_state
    = (Err (RuntimeError "test"), s3) /\
    token_calls 0 (since empty_state s3) = [].
Proof.
  destruct (release_suppresses_finalization
              sample_behaviour simple_bind simple_defaults
              "callback" no_args (fn_plain body_release_raise)
              (Wrapper (fn_plain body_release_raise) "callback" no_args)
              body_release_raise (to "m") empty_state (holding "m")
              (State [PNone] [ERelease 0 (PFun "m")])
              0 (bound_token 0) "m" (Err (RuntimeError "test")) (PFun "m"))
    as (_ & s3 & R & _ & C & _);
    [reflexivity | reflexivity | vm_compute; reflexivity | reflexivity
    | vm_compute; reflexivity | apply list_elem_of_here | discriminate |].
  exists s3. split; [exact R | exact C].
Defined.

Lemma generator_finalization_timing_witness :
  (exists inner,
     iterate sample_behaviour simple_bind simple_defaults
       (Wrapper (fn_generator body_yield_twice) "callback" no_args)
       body_yield_twice 1 (Created (to "m")) empty_state
     = ((Delegating 0 inner, [Yields (VPlain (PInt 1))]), holding "m")) /\
  (exists sf q,
     iterate sample_behaviour simple_bind simple_defaults
       (Wrapper (fn_generator body_yield_twice) "callback" no_args)
       body_yield_twice 3 (Created (to "m")) empty_state
     = ((Unwound, [Yields (VPlain (PInt 1)); Yields (VPlain (PInt 2));
                   Stops VNone]),
        State [PNone] [EInvoke 0 no_args (PFun "m")]) /\
     trace (State [PNone] [EInvoke 0 no_args (PFun "m")])
     = trace sf ++ [EInvoke 0 no_args q]).
Proof.
  destruct (generator_finalization_timing
              sample_behaviour simple_bind simple_defaults
              "callback" no_args (fn_generator body_yield_twice)
              (Wrapper (fn_generator body_yield_twice) "callback" no_args)
              body_yield_twice (to "m") empty_state (holding "m")
              0 (bound_token 0))
    as (_ & _ & T);
    [reflexivity | reflexivity | vm_compute; reflexivity |].
  split.
  - destruct (T 0 _ _ _ eq_refl)
      as [(inner & vs & E & _)|(E & _)]; [|discriminate].
    exists inner. injection E as <-. reflexivity.
  - destruct (T 2 _ _ _ eq_refl)
      as [(inner & vs & E & _)
         |(_ & m & inner_m & vs & sm & g & r & sf & q & _ & _ & _ & _ & _ & Tr & _)];
      [discriminate|].
    exists sf, q. split; [reflexivity | exact Tr].
Defined.

Lemma body_error_propagates_witness :
  exists s3,
    call_wrapper sample_behaviour simple_bind simple_defaults
      (Wrapper (fn_plain body_raise) "callback" no_args) (to "m") empty_state
    = (Err (RuntimeError "test"), s3) /\
    since (holding "m") s3 = [EInvoke 0 no_args (PFun "m")].
Proof.
  destruct (body_error_propagates sample_behaviour simple_bind simple_defaults
              "callback" no_args (fn_plain body_raise)
              (Wrapper (fn_plain body_raise) "callback" no_args)
              body_raise (to "m") empty_state (holding "m") (holding "m")
              0 (bound_token 0) (RuntimeError "test"))
    as (q & s3 & Hq & S & R);
    [reflexivity | reflexivity | vm_compute; reflexivity | reflexivity |].
  injection Hq as <-. exists s3. split; [exact R | exact S].
Defined.

(** C6 does not hold for every callback: the body raises
    [RuntimeError("test")], the callback ["bad"] raises during the
    finalization step, and the caller gets the exception of the callback
    instead of the one of the body. *)
Lemma body_error_replaced_by_callback_error :
  ~ (forall behaviour sig_bind apply_defaults
       (cb : string) (ca : call_args) (fo : function) (w : wrapper)
       (body : arguments -> prog Empty_set) (a : call_args)
       (s0 s1 s2 : state) (l : loc) (ba : arguments) (e : exn),
       ensure_callback cb ca fo = Ok w ->
       fn_code fo = PlainCode body ->
       _bindargs_and_get_callobj sig_bind apply_defaults
         (fn_signature fo) cb a s0 = (Ok (l, ba), s1) ->
       exec behaviour (body ba) s1 = (Err e, s2) ->
       fst (call_wrapper behaviour sig_bind apply_defaults w a s0) = Err e).
Proof.
  intros H.
  specialize (H sample_behaviour simple_bind simple_defaults
                "callback" no_args (fn_plain body_raise)
                (Wrapper (fn_plain body_raise) "callback" no_args)
                body_raise (to "bad") empty_state (holding "bad") (holding "bad")
                0 (bound_token 0) (RuntimeError "test")).
  assert (fst (call_wrapper sample_behaviour simple_bind simple_defaults
                 (Wrapper (fn_plain body_raise) "callback" no_args)
                 (to "bad") empty_state)
          = Err (Exn "OSError" "callback failed")) as E by (vm_compute; reflexivity).
  rewrite H in E; [discriminate | reflexivity | reflexivity
                  | vm_compute; reflexivity | reflexivity].
Qed.

Lemma decoration_validates_parameter_witness :
  ensure_callback "n/a" no_args (fn_plain body_return)
  = Err (ValueError "Wrapped function 'myfu' has no parameter 'n/a'!") /\
  ensure_callback "callback" no_args (fn_plain body_return)
  = Ok (Wrapper (fn_plain body_return) "callback" no_args).
Proof.
  split.
  - apply (decoration_validates_parameter "n/a" no_args (fn_plain body_return)).
    apply (bool_decide_unpack _). vm_compute. exact I.
  - apply (decoration_validates_parameter "callback" no_args (fn_plain body_return)).
    apply (bool_decide_unpack _). vm_compute. exact I.
Defined.

Lemma rewrap_moves_ownership_witness :
  exists l' s',
    CallbackWrapper_init (VToken 0) (holding "m") = (Ok l', s') /\
    heap s' !! 0 = Some PNone /\ heap s' !! l' = Some (PFun "m").
Proof.
  destruct (rewrap_moves_ownership sample_behaviour 0 (holding "m") (PFun "m"))
    as [H _]; [reflexivity|].
  destruct H as (l' & sr & s' & _ & I & _ & _ & _ & _ & E & E' & _); [discriminate|].
  exists l', s'. split; [exact I|]. split; [exact E | exact E'].
Defined.

Lemma invoke_clears_before_calling_witness :
  exists s',
    CallbackWrapper_call sample_behaviour 0 one (holding "bad")
    = (Err (Exn "OSError" "callback failed"), s') /\
    heap s' !! 0 = Some PNone /\
    CallbackWrapper_call sample_behaviour 0 one s'
    = (Ok VNone, log (EInvoke 0 one PNone) s').
Proof.
  destruct (invoke_clears_before_calling sample_behaviour 0 one
              (holding "bad") (PFun "bad"))
    as (s' & C & E & _ & N & _); [reflexivity | discriminate |].
  exists s'. split; [exact C|]. split; [exact E | apply N].
Defined.

Lemma reuse_error_is_release_error_witness :
  CallbackWrapper_init (VToken 0) (State [PNone] [])
  = (Err already_released, log (ERelease 0 PNone) (State [PNone] [])) /\
  CallbackWrapper_release 0 (State [PNone] [])
  = (Err already_released, log (ERelease 0 PNone) (State [PNone] [])).
Proof.
  destruct (reuse_error_is_release_error 0 (State [PNone] []))
    as (I & R & _); [reflexivity|].
  split; [exact I | exact R].
Defined.

(** * The further properties on the functions of the test suite *)

Lemma binder_substitutes_token_witness :
  exists p,
    heap (State [PNone; PFun "m"] [ERelease 0 (PFun "m")]) !! 1 = Some p /\
    bound_token 1 !! "callback" = Some (VToken 1).
Proof.
  destruct (binder_substitutes_token simple_bind simple_defaults
              sig_callback "callback" (CallArgs [VToken 0] []) (holding "m")
              (State [PNone; PFun "m"] [ERelease 0 (PFun "m")]) 1 (bound_token 1))
    as (bound & v & p & _ & _ & _ & _ & H1 & Hc & _);
    [vm_compute; reflexivity|].
  exists p. split; [exact H1 | exact Hc].
Defined.

Lemma binding_failure_skips_finalization_witness :
  call_wrapper sample_behaviour simple_bind simple_defaults
    (Wrapper (fn_plain body_return) "callback" no_args)
    (CallArgs [VToken 0] []) (State [PNone] [])
  = (Err already_released, log (ERelease 0 PNone) (State [PNone] [])).
Proof.
  destruct (binding_failure_skips_finalization
              sample_behaviour simple_bind simple_defaults
              "callback" no_args (fn_plain body_return)
              (Wrapper (fn_plain body_return) "callback" no_args)
              body_return (CallArgs [VToken 0] []) (State [PNone] [])
              (log (ERelease 0 PNone) (State [PNone] [])) already_released)
    as (R & _);
    [reflexivity | reflexivity | vm_compute; reflexivity | exact R].
Defined.

Lemma generator_binding_failure_is_deferred_witness :
  iterate sample_behaviour simple_bind simple_defaults
    (Wrapper (fn_generator body_yield_twice) "callback" no_args)
    body_yield_twice 2 (Created no_args) empty_state
  = ((Unwound,
      [Raises (TypeError "missing a required argument: 'callback'"); Stops VNone]),
     empty_state).
Proof.
  destruct (generator_binding_failure_is_deferred
              sample_behaviour simple_bind simple_defaults
              "callback" no_args (fn_generator body_yield_twice)
              (Wrapper (fn_generator body_yield_twice) "callback" no_args)
              body_yield_twice no_args empty_state empty_state
              (TypeError "missing a required argument: 'callback'") 1)
    as (_ & I & _);
    [reflexivity | reflexivity | vm_compute; reflexivity | exact I].
Defined.

Lemma wrapped_call_consumes_exactly_once_witness :
  exists r s3,
    call_wrapper sample_behaviour simple_bind simple_defaults
      (Wrapper (fn_plain body_release) "callback" no_args) (to "m") empty_state
    = (r, s3) /\
    length (consumptions 0 (since empty_state s3)) = 1.
Proof.
  destruct (wrapped_call_consumes_exactly_once
              sample_behaviour simple_bind simple_defaults
              "callback" no_args (fn_plain body_release)
              (Wrapper (fn_plain body_release) "callback" no_args)
              body_release (to "m") empty_state (holding "m")
              (State [PNone] [ERelease 0 (PFun "m")])
              0 (bound_token 0) (PFun "m") (Ok VNone))
    as (r & s3 & R & _ & L & _);
    [reflexivity | reflexivity | vm_compute; reflexivity | reflexivity
    | discriminate | vm_compute; reflexivity |].
  exists r, s3. split; [exact R | exact L].
Defined.

Lemma none_callback_is_never_invoked_witness :
  exists s3,
    call_wrapper sample_behaviour simple_bind simple_defaults
      (Wrapper (fn_plain body_raise) "callback" no_args)
      (CallArgs [VNone] []) empty_state
    = (Err (RuntimeError "test"), s3) /\
    token_calls 0 (since empty_state s3) = [].
Proof.
  destruct (none_callback_is_never_invoked
              sample_behaviour simple_bind simple_defaults
              "callback" no_args (fn_plain body_raise)
              (Wrapper (fn_plain body_raise) "callback" no_args)
              body_raise (CallArgs [VNone] []) empty_state
              (State [PNone] []) (State [PNone] [])
              0 (bound_token 0) (Err (RuntimeError "test")))
    as (_ & s3 & R & _ & _ & C & _);
    [reflexivity | reflexivity | vm_compute; reflexivity | reflexivity
    | reflexivity |].
  exists s3. split; [exact R | exact C].
Defined.

Lemma wrapper_is_transparent_witness :
  fst (call_wrapper sample_behaviour simple_bind simple_defaults
         (Wrapper (fn_plain body_invoke) "callback" no_args) (to "m") empty_state)
  = Ok (Returns (VPlain (PStr "string_res"))).
Proof.
  apply (wrapper_is_transparent sample_behaviour simple_bind simple_defaults
           "callback" no_args (fn_plain body_invoke)
           (Wrapper (fn_plain body_invoke) "callback" no_args)
           body_invoke (to "m") empty_state (holding "m")
           (State [PNone] [EInvoke 0 one (PFun "m")])
           0 (bound_token 0) "m" (Ok (VPlain (PStr "string_res"))));
    [reflexivity | reflexivity | vm_compute; reflexivity | reflexivity
    | intros s; by exists VNone | vm_compute; reflexivity].
Defined.

Lemma chained_ownership_witness :
  calls_to "m"
    (since empty_state
       (snd (chain sample_behaviour simple_bind simple_defaults
               [Level sig_callback "callback" one pass_callback]
               (Wrapper (fn_plain body_return) "callback" no_args)
               body_return (to "m") empty_state)))
  = [no_args].
Proof.
  destruct (chained_ownership sample_behaviour simple_bind simple_defaults
              (Wrapper (fn_plain body_return) "callback" no_args)
              body_return "m"
              [Level sig_callback "callback" one pass_callback]
              (to "m") empty_state (VPlain (PFun "m")))
    as (ln & ban & sa & sb & o & _ & _ & He & C & _).
  - split; [|exact I]. intros ba l H.
    exists (<["callback" := VToken l]> ∅). simpl in H |- *.
    unfold pass_callback, the_callback. rewrite H.
    split; vm_compute; reflexivity.
  - exists (<["callback" := VPlain (PFun "m")]> ∅). split; vm_compute; reflexivity.
  - reflexivity.
  - injection He as _ <-. rewrite since_refl in C. exact C.
Defined.

Lemma generator_consumes_exactly_once_witness :
  exists fr os s',
    consume sample_behaviour simple_bind simple_defaults
      (Wrapper (fn_generator body_yield_twice) "callback" no_args)
      body_yield_twice [Next; Close; Next] (Created (to "m")) empty_state
    = ((fr, os), s') /\
    length (consumptions 0 (since empty_state s')) <= 1.
Proof.
  destruct (generator_consumes_exactly_once
              sample_behaviour simple_bind simple_defaults
              "callback" no_args (fn_generator body_yield_twice)
              (Wrapper (fn_generator body_yield_twice) "callback" no_args)
              body_yield_twice (to "m") empty_state (holding "m")
              0 (bound_token 0) (PFun "m") [Close; Next])
    as (fr & os & s' & C & L & _);
    [reflexivity | reflexivity | vm_compute; reflexivity | reflexivity |].
  exists fr, os, s'. split; [exact C | exact L].
Defined.

Lemma wrap_then_release_round_trip_witness :
  exists l s1 s2,
    CallbackWrapper_init (VToken 0) (holding "m") = (Ok l, s1) /\
    release_callback (VToken l) s1 = (Ok (PFun "m"), s2) /\
    heap s2 !! 0 = Some PNone.
Proof.
  destruct (wrap_then_release_round_trip (VToken 0) (holding "m") (PFun "m"))
    as (l & s1 & s2 & I & R & _ & Z & _); [reflexivity | discriminate |].
  exists l, s1, s2. split; [exact I|]. split; [exact R|].
  by destruct (Z 0 eq_refl).
Defined.

Lemma generator_wrapper_is_transparent_witness :
  iterate sample_behaviour simple_bind simple_defaults
    (Wrapper (fn_generator body_yield_return) "callback" no_args)
    body_yield_return 1 (Created (to "m")) empty_state
  = ((Delegating 0 (AtYield (on_next (Return value (VPlain (PInt 7))))),
      [Yields (VPlain (PInt 1))]), holding "m") /\
  snd (fst (gen_next sample_behaviour
              (AtYield (on_next (Return value (VPlain (PInt 7))))) (holding "m")))
  = Stops (VPlain (PInt 7)) /\
  snd (fst (wrapper_next sample_behaviour simple_bind simple_defaults
              (Wrapper (fn_generator body_yield_return) "callback" no_args)
              body_yield_return
              (Delegating 0 (AtYield (on_next (Return value (VPlain (PInt 7))))))
              (holding "m")))
  = Stops VNone /\
  snd (fst (wrapper_close sample_behaviour
              (Wrapper (fn_generator body_yield_return) "callback" no_args)
              (Delegating 0 (AtYield (on_next (Return value (VPlain (PInt 7))))))
              (holding "m")))
  = None.
Proof.
  destruct (generator_wrapper_is_transparent
              sample_behaviour simple_bind simple_defaults
              (Wrapper (fn_generator body_yield_return) "callback" no_args)
              body_yield_return
              0 (AtYield (on_next (Return value (VPlain (PInt 7))))) (holding "m")
              (PFun "m"))
    as [N C]; [reflexivity | right; intros s; by exists VNone |].
  split; [vm_compute; reflexivity|]. split; [reflexivity|].
  split; [exact N | exact C].
Defined.

Lemma body_consumes_at_most_once_witness :
  length (consumptions 0
            (since (holding "m")
               (snd (run sample_behaviour (body_invoke (bound_token 0))
                       (holding "m"))))) <= 1.
Proof.
  destruct (body_consumes_at_most_once sample_behaviour
              (body_invoke (bound_token 0)) (holding "m") 0 (PFun "m"))
    as (L & _); [reflexivity | exact L].
Defined.
